(** * MakePass: word-based password generation and its entropy estimate

    A shallow embedding of [src/makepass/makepass.py].

    Conventions of the embedding:
    - Python [int] is [Z]; [len] is [Z.of_nat] of a length.
    - Python [float] values produced by [math.log2] and added up by [sum]
      are idealised as real numbers ([R]); rounding is not modelled.
    - A [str] is a [string]; its characters are 8-bit code points (the
      source states: "Assumes only ascii").
    - An exception is a value [Raised e]; a loop that does not finish within
      the given number of iterations is [OutOfFuel].
    - The random source behind [random_choice] is an arbitrary infinite
      sequence [rng : nat → nat]; the state threaded through the generators
      is the number of values consumed so far.
    - Text written to standard error (warnings, the verbose report) is not
      modelled; standard output and the value returned by [main] are. *)

From Stdlib Require Import Reals Lra ZArith Lia Ascii.
From stdpp Require Import gmap strings list pretty.

Open Scope Z_scope.

(** ** Python runtime: exceptions and results *)

Inductive exn := ValueError | TypeError | IndexError.

Inductive result (A : Type) :=
| Done (a : A)
| Raised (e : exn)
| OutOfFuel.
Arguments Done {A} a.
Arguments Raised {A} e.
Arguments OutOfFuel {A}.

#[global] Instance result_ret : MRet result := λ A a, Done a.
#[global] Instance result_bind : MBind result := λ A B f m,
  match m with
  | Done a => f a
  | Raised e => Raised e
  | OutOfFuel => OutOfFuel
  end.

(** A computation that draws from the random source: it maps the number of
    random values consumed so far to a result and the new number. *)
Definition gen (A : Type) : Type := nat → result (A * nat).

#[global] Instance gen_ret : MRet gen := λ A a pos, Done (a, pos).
#[global] Instance gen_bind : MBind gen := λ A B f m pos,
  match m pos with
  | Done (a, pos') => f a pos'
  | Raised e => Raised e
  | OutOfFuel => OutOfFuel
  end.

Definition lift {A} (r : result A) : gen A := λ pos, a ← r; Done (a, pos).

(** [float('inf')] next to the integers it is compared with. *)
Inductive bound := Fin (z : Z) | Inf.

(** [a <= b] and [a > b] for an [int] against an [int] or infinity *)
Definition le_bound (a : Z) (b : bound) : bool :=
  match b with Fin z => a <=? z | Inf => true end.
Definition gt_bound (a : Z) (b : bound) : bool :=
  match b with Fin z => a >? z | Inf => false end.

(** [len(s)] *)
Definition len (s : string) : Z := Z.of_nat (String.length s).

(** [''.join(parts)] *)
Definition join (parts : list string) : string := foldr String.append "" parts.

(** Iterating over a [str] yields its characters as one-character strings. *)
Fixpoint chars (s : string) : list string :=
  match s with
  | EmptyString => []
  | String c s' => String c "" :: chars s'
  end.

(** [sys.maxsize] of a 64-bit CPython *)
Definition sys_maxsize : Z := 2 ^ 63 - 1.

(** The stop argument of [itertools.islice]: "must be None or an integer:
    0 <= x <= sys.maxsize", checked when the slice object is created. *)
Definition islice_stop (n : Z) : result nat :=
  if (0 <=? n) && (n <=? sys_maxsize) then Done (Z.to_nat n)
  else Raised ValueError.

(** [range(n)] *)
Definition range (n : Z) : list Z := Z.of_nat <$> seq 0 (Z.to_nat n).

(** [math.log2] on an [int]: "math domain error" unless the argument is
    positive. *)
Definition Rlog2 (x : R) : R := (ln x / ln 2)%R.
Definition log2 (x : Z) : result R :=
  if 0 <? x then Done (Rlog2 (IZR x)) else Raised ValueError.

(** [sum(f(n) for n in l)], started from [acc]: the generator expression is
    consumed left to right and [f] is evaluated as each item is pulled. *)
Fixpoint sum_gen (f : Z → result R) (l : list Z) (acc : R) : result R :=
  match l with
  | [] => Done acc
  | n :: l' => x ← f n; sum_gen f l' (acc + x)%R
  end.

(** ** Regular expressions: the fragment of Python's [re] the source uses

    A backtracking matcher with greedy repetition and capturing groups.
    Patterns are matched without flags, so [^] is the start of the string
    and [$] is the end of the string or the position just before a newline
    that ends it. *)

Inductive class_item :=
| Range (lo hi : ascii)   (* a-z *)
| Digit                   (* \d *)
| Space.                  (* \s *)

Inductive regex :=
| Class (negated : bool) (items : list class_item)  (* [...] and [^...] *)
| Cat (r1 r2 : regex)
| Repeat (lo : nat) (hi : option nat) (r : regex)   (* greedy r{lo,hi} *)
| Group (i : nat) (r : regex)                       (* capturing group i *)
| Bol                                               (* ^ *)
| Eol.                                              (* $ *)

Definition code (c : ascii) : nat := nat_of_ascii c.

Definition between (lo hi c : nat) : bool := (lo <=? c)%nat && (c <=? hi)%nat.

(** [\d] and [\s] on the code points below 256: the decimal digits are
    0-9; the whitespace characters are TAB..CR, FS..US, space, NEL and the
    no-break space. *)
Definition item_matches (it : class_item) (c : ascii) : bool :=
  match it with
  | Range lo hi => between (code lo) (code hi) (code c)
  | Digit => between 48 57 (code c)
  | Space => between 9 13 (code c) || between 28 32 (code c)
             || (code c =? 133)%nat || (code c =? 160)%nat
  end.

Definition class_matches (negated : bool) (items : list class_item)
    (c : ascii) : bool :=
  xorb negated (existsb (λ it, item_matches it c) items).

(** The state of a match attempt: the position in the subject, the text
    from there on, and the text captured by the groups closed so far. *)
Record mstate := MState {
  m_pos : nat;
  m_rest : string;
  m_groups : list (nat * string)
}.

(** The state after one character: [s] is what follows it. *)
Definition advance (s : string) (st : mstate) : mstate :=
  MState (S (m_pos st)) s (m_groups st).

(** The text between the state at which a group opened and the state at
    which it closed. *)
Definition span (opened closed : mstate) : string :=
  String.substring 0 (m_pos closed - m_pos opened) (m_rest opened).

Definition close_group (i : nat) (opened closed : mstate) : mstate :=
  MState (m_pos closed) (m_rest closed)
         ((i, span opened closed) :: m_groups closed).

Definition may_repeat (count : nat) (hi : option nat) : bool :=
  match hi with Some h => (count <? h)%nat | None => true end.

Definition matcher : Type := mstate → (mstate → option mstate) → option mstate.

(** Greedy repetition: try one more iteration of [body] first, and fall
    back to the continuation when that fails.  A further iteration is taken
    only if the last one consumed input. *)
Fixpoint repeat_loop (body : matcher) (lo : nat) (hi : option nat)
    (fuel count : nat) (st : mstate) (k : mstate → option mstate)
    : option mstate :=
  let stop := if (lo <=? count)%nat then k st else None in
  match fuel with
  | O => stop
  | S fuel' =>
      if may_repeat count hi then
        match body st (λ st',
                if (m_pos st <? m_pos st')%nat
                then repeat_loop body lo hi fuel' (S count) st' k
                else None) with
        | Some m => Some m
        | None => stop
        end
      else stop
  end.

Fixpoint rmatch (r : regex) : matcher := λ st k,
  match r with
  | Class negated items =>
      match m_rest st with
      | String c s =>
          if class_matches negated items c then k (advance s st) else None
      | EmptyString => None
      end
  | Cat r1 r2 => rmatch r1 st (λ st', rmatch r2 st' k)
  | Repeat lo hi r' =>
      repeat_loop (rmatch r') lo hi (S (String.length (m_rest st))) 0 st k
  | Group i r' => rmatch r' st (λ st', k (close_group i st st'))
  | Bol => if (m_pos st =? 0)%nat then k st else None
  | Eol =>
      if bool_decide (m_rest st = "" ∨ m_rest st = String "010" "")
      then k st else None
  end.

(** [re.match(r, s)] *)
Definition re_match (r : regex) (s : string) : option mstate :=
  rmatch r (MState 0 s []) Some.

(** [m.group(i)]: [None] for a group that took no part in the match *)
Definition group (m : mstate) (i : nat) : option string :=
  g ← list_find (λ g, fst g = i) (m_groups m); Some (snd (snd g)).

(** [re.search(r, s)]: the first position at which [r] matches *)
Fixpoint search_from (r : regex) (pos : nat) (s : string) : option mstate :=
  match rmatch r (MState pos s []) Some with
  | Some m => Some m
  | None =>
      match s with
      | String _ s' => search_from r (S pos) s'
      | EmptyString => None
      end
  end.

Definition re_search (r : regex) (s : string) : option mstate :=
  search_from r 0 s.

(** [re.findall(r, s)] for a pattern without groups: the texts of the
    successive non-overlapping matches, scanning from the left.  After an
    empty match the scan moves on by one character. *)
Fixpoint findall_from (r : regex) (fuel pos : nat) (s : string)
    : list string :=
  match fuel with
  | O => []
  | S fuel' =>
      let st := MState pos s [] in
      match rmatch r st Some, s with
      | Some m, String _ s' =>
          if (pos <? m_pos m)%nat
          then span st m :: findall_from r fuel' (m_pos m) (m_rest m)
          else span st m :: findall_from r fuel' (S pos) s'
      | Some m, EmptyString => [span st m]
      | None, String _ s' => findall_from r fuel' (S pos) s'
      | None, EmptyString => []
      end
  end.

Definition re_findall (r : regex) (s : string) : list string :=
  findall_from r (S (String.length s)) 0 s.

(** ** Decomposing a password (lines 92-101) *)

Definition upper : regex := Class false [Range "A" "Z"].
Definition lower : regex := Class false [Range "a" "z"].
Definition digit : regex := Class false [Range "0" "9"].
Definition non_alnum : regex :=
  Class true [Range "a" "z"; Range "A" "Z"; Range "0" "9"].

Definition word_re : regex := Cat upper (Repeat 0 None lower).

(** The patterns of [password_parts] as the source writes them, and their
    syntax trees. *)
Definition word_pattern : string := "[A-Z][a-z]*".
Definition password_pattern : string :=
  "^((?:[A-Z][a-z]*)+)([0-9]?)([^a-zA-Z0-9]?)$".

Definition password_re : regex :=
  Cat Bol
 (Cat (Group 1 (Repeat 1 None word_re))
 (Cat (Group 2 (Repeat 0 (Some 1%nat) digit))
 (Cat (Group 3 (Repeat 0 (Some 1%nat) non_alnum))
      Eol))).

Definition password_parts (password : string)
    : result (list string * option string * option string) :=
  match re_match password_re password with
  | Some m =>
      match group m 1 with
      | Some stem =>
          let word_parts := re_findall word_re stem in
          let number_part := group m 2 in
          let char_part := group m 3 in
          Done (word_parts, number_part, char_part)
      | None => Raised TypeError
      end
  | None => Raised ValueError
  end.

(** ** Entropy estimation (lines 115-178) *)

Definition wordset_entropy (word_set_size word_count : Z) : result R :=
  sum_gen (λ n, log2 (word_set_size - n)) (range word_count) 0%R.

Definition numeral_entropy (append_numeral : bool) : result R :=
  if append_numeral then log2 10 else Done 0%R.

Definition special_char_entropy (special_chars : string) : result R :=
  if bool_decide (special_chars ≠ "") then log2 (len special_chars)
  else Done 0%R.

Definition sampled_entropy (sample_size success_size : Z) : result R :=
  a ← log2 success_size;
  b ← log2 sample_size;
  Done (a - b)%R.

Definition estimate_entropy (word_set_size word_count : Z)
    (append_numeral : bool) (special_chars : string)
    (sample_size success_size : Z) : result R :=
  w ← wordset_entropy word_set_size word_count;
  n ← numeral_entropy append_numeral;
  c ← special_char_entropy special_chars;
  s ← sampled_entropy sample_size success_size;
  Done (w + n + c + s)%R.

(** The entropy terms in the words of the specification. *)
Fixpoint big_sum (f : nat → R) (k : nat) : R :=
  match k with
  | O => 0%R
  | S k' => (big_sum f k' + f k')%R
  end.

Definition spec_word_selection_entropy (N word_count : Z) : R :=
  big_sum (λ n, Rlog2 (IZR (N - Z.of_nat n))) (Z.to_nat word_count).

Definition spec_numeral_entropy (digit_appended : bool) : R :=
  if digit_appended then Rlog2 10 else 0%R.

Definition spec_special_char_entropy (special_chars : string) : R :=
  if bool_decide (special_chars ≠ "") then Rlog2 (IZR (len special_chars))
  else 0%R.

Definition spec_sampling_correction (sample_size success_size : Z) : R :=
  (Rlog2 (IZR success_size) - Rlog2 (IZR sample_size))%R.

(** ** Length filter (lines 34-41) *)

Definition in_length (min_len : Z) (max_len : bound) (word : string) : bool :=
  (min_len <=? len word) && le_bound (len word) max_len.

(** [constrain_word_length] over a finite sequence of words *)
Definition constrain_word_length (words : list string) (min_len : Z)
    (max_len : bound) : list string :=
  filter (λ word, in_length min_len max_len word = true) words.

(** ** The command (lines 210-394) *)

(** The parameters of [main] as the command line delivers them. *)
Record args := Args {
  word_count : Z;
  min_length : option Z;
  max_length : option Z;
  append_char : bool;
  special_set : string;
  no_append_numeral : bool;
  min_word : Z;
  max_word : Z;
  entropy_estimate : bool;
  verbose : bool;
  count : bool;
  sample_size : Z;
  top_words : Z
}.

(** The defaults of the signature of [main] *)
Definition default_args : args :=
  Args 4 None None false "-_()/.,?!;:" false 4 8 false false false
       10000 20000.

(** What a run of [main] leaves behind: a returned string, which the
    command-line wrapper turns into a failing exit with that message, or a
    password printed on standard output.  [entropy] is the estimate
    computed when [entropy_estimate] or [verbose] is set. *)
Inductive outcome :=
| Exit (message : string)
| Printed (password : string) (entropy : option R).

(** Truth value of an optional [int]: [None] and [0] are false. *)
Definition truthy (v : option Z) : bool :=
  match v with
  | Some z => negb (z =? 0)
  | None => false
  end.

(** Lines 244-250: the length bounds after defaulting.  A bound that is
    still [None] afterwards makes the comparison of line 252 raise. *)
Definition default_lengths (min_length max_length : option Z)
    : option Z * option bound :=
  match min_length, max_length with
  | None, None => (Some 24, Some Inf)
  | _, _ =>
      if truthy max_length && negb (truthy min_length)
      then (max_length, Fin <$> max_length)
      else if truthy min_length && negb (truthy max_length)
      then (min_length, Some Inf)
      else (min_length, Fin <$> max_length)
  end.

(** The bounds the length filter of line 321 is given: the defaulted ones,
    with the minimum raised to 1 by line 255. *)
Definition effective_lengths (a : args) : option (Z * bound) :=
  match default_lengths (min_length a) (max_length a) with
  | (Some lo, Some hi) => Some (Z.max 1 lo, hi)
  | _ => None
  end.

Definition show_bound (b : bound) : string :=
  match b with
  | Fin z => pretty z
  | Inf => "inf"
  end.

Definition possible_size (word_len : Z) (a : args) : Z :=
  word_len * word_count a
  + (if no_append_numeral a then 0 else 1)
  + (if append_char a then 1 else 0).

(** The pattern of line 294 *)
Definition invalid_special_pattern : string := "[a-zA-Z\d\s]".
Definition invalid_special_re : regex :=
  Class false [Range "a" "z"; Range "A" "Z"; Digit; Space].

Definition msg_min_word : string :=
  "min_word must be less than or equal to max_word".
Definition msg_min_length : string :=
  "min_length must be less than or equal to max_length".
Definition msg_too_long (size : Z) (allowed : bound) : string :=
  "Impossible constraints: minumum possible size (" +:+ pretty size +:+
  ") greater than maximum allowed password length (" +:+
  show_bound allowed +:+ ")".
Definition msg_too_short (size allowed : Z) : string :=
  "Impossible constraints: maximum possible size (" +:+ pretty size +:+
  ") less than minimum allowed password length (" +:+ pretty allowed +:+ ")".
Definition msg_invalid_special : string :=
  "Invalid special character {char} in special character set. " +:+
  "Special characters should not be alpha, numeric, or whitespace.".
Definition msg_exhausted : string :=
  "Couldn't generate password matching constraints".

(** [base_word_set(top_words)]: the first [top_words] lines of the bundled
    word list [words_txt], given decoded and stripped. *)
Definition base_word_set (words_txt : list string) (top_words : Z)
    : result (list string) :=
  n ← islice_stop top_words; Done (take n words_txt).

(** What the checks of lines 241-318 hand over to the sampling of lines
    321-394: the local variables of [main] at that point. *)
Record plan := Plan {
  p_word_set : list string;
  p_special_set : string;
  p_append_numeral : bool;
  p_min_length : Z;
  p_max_length : bound;
  p_sample : nat          (* the stop of [islice(passwords, sample_size)] *)
}.

(** Lines 241-318 of [main]: every check made before the first candidate
    is pulled.  [inl message] is an early [return message]. *)
Definition configure (words_txt : list string) (a : args)
    : result (string + plan) :=
  if min_word a >? max_word a then Done (inl msg_min_word) else
  match default_lengths (min_length a) (max_length a) with
  | (Some min_length, Some max_length) =>
      if gt_bound min_length max_length then Done (inl msg_min_length) else
      let min_length := Z.max 1 min_length in
      let min_word := Z.max 1 (min_word a) in
      let min_possible_size := possible_size min_word a in
      let max_possible_size := possible_size (max_word a) a in
      if gt_bound min_possible_size max_length then
        Done (inl (msg_too_long min_possible_size max_length))
      else if max_possible_size <? min_length then
        Done (inl (msg_too_short max_possible_size min_length))
      else
        top ← base_word_set words_txt (top_words a);
        let word_set :=
          constrain_word_length top min_word (Fin (max_word a)) in
        let word_set_size := Z.of_nat (length word_set) in
        let special_set := if append_char a then special_set a else "" in
        if bool_decide (is_Some (re_search invalid_special_re special_set))
        then Done (inl msg_invalid_special) else
        (* line 301: the comparison itself only decides on a warning *)
        _ ← log2 word_set_size;
        _ ← log2 26;
        n ← islice_stop (sample_size a);
        Done (inr (Plan word_set special_set (negb (no_append_numeral a))
                        min_length max_length n))
  | _ => Raised TypeError
  end.

(** ** Candidate generation (lines 44-86) *)

Section Generation.
(** The random source: [rng k] is the [k]-th value it delivers. *)
Variable rng : nat → nat.

(** [random_choice(things)]: one value of the source selects an index;
    an empty sequence raises [IndexError]. *)
Definition random_choice {A} (things : list A) : gen A := λ pos,
  match things !! (rng pos `mod` length things)%nat with
  | Some thing => Done (thing, S pos)
  | None => Raised IndexError
  end.

(** One [next()] on [non_repeating(random_stream(things))] whose [seen]
    set is [seen]: draw until a thing not yet seen comes up, add it and
    yield it.  [fuel] bounds the number of draws. *)
Fixpoint non_repeating (fuel : nat) (things : list string)
    (seen : gset string) : gen (string * gset string) :=
  match fuel with
  | O => λ _, OutOfFuel
  | S fuel' =>
      thing ← random_choice things;
      if bool_decide (thing ∈ seen) then non_repeating fuel' things seen
      else mret (thing, {[thing]} ∪ seen)
  end.

(** [islice(non_repeating(words), n)] consumed to its end: the slice
    stops after [n] items without pulling another one. *)
Fixpoint islice_non_repeating (fuel : nat) (things : list string)
    (n : nat) (seen : gset string) : gen (list string) :=
  match n with
  | O => mret []
  | S n' =>
      '(thing, seen') ← non_repeating fuel things seen;
      rest ← islice_non_repeating fuel things n' seen';
      mret (thing :: rest)
  end.

(** The words of one stem: a fresh [seen] set for every stem. *)
Definition alpha_words (fuel : nat) (word_set : list string)
    (word_count : Z) : gen (list string) :=
  n ← lift (islice_stop word_count);
  islice_non_repeating fuel word_set n ∅.

(** One [next()] on [gen_alpha_passwords(word_set, word_count)] *)
Definition gen_alpha_passwords (fuel : nat) (word_set : list string)
    (word_count : Z) : gen string :=
  words ← alpha_words fuel word_set word_count;
  mret (join words).

(** One [next()] on [base_passwords(...)]: [zip] pulls the stem, then
    the numeral, then the special character, and the tuple is joined. *)
Definition base_passwords (fuel : nat) (word_set : list string)
    (word_count : Z) (append_numeral : bool) (special_chars : string)
    : gen string :=
  stem ← gen_alpha_passwords fuel word_set word_count;
  numeral ← (if append_numeral then
               d ← random_choice (chars "0123456789"); mret [d]
             else mret []);
  special ← (if bool_decide (special_chars ≠ "") then
               c ← random_choice (chars special_chars); mret [c]
             else mret []);
  mret (join (stem :: numeral ++ special)).

(** The first [n] items of [base_passwords(...)], in iteration order. *)
Fixpoint batch (fuel : nat) (word_set : list string) (word_count : Z)
    (append_numeral : bool) (special_chars : string) (n : nat)
    : gen (list string) :=
  match n with
  | O => mret []
  | S n' =>
      p ← base_passwords fuel word_set word_count append_numeral
            special_chars;
      ps ← batch fuel word_set word_count append_numeral special_chars n';
      mret (p :: ps)
  end.

(** One [next()] on the filtered sample of lines 318-321,
    [constrain_word_length(islice(passwords, sample_size), ...)], of
    which the slice has [remaining] items left: candidates are pulled
    until one lies within the length bounds.  [None] is [StopIteration];
    otherwise the password comes with what is left of the slice. *)
Fixpoint constrain_word_length_next (fuel : nat) (word_set : list string)
    (word_count : Z) (append_numeral : bool) (special_chars : string)
    (min_len : Z) (max_len : bound) (remaining : nat)
    : gen (option (string * nat)) :=
  match remaining with
  | O => mret None
  | S remaining' =>
      word ← base_passwords fuel word_set word_count append_numeral
               special_chars;
      if in_length min_len max_len word then mret (Some (word, remaining'))
      else constrain_word_length_next fuel word_set word_count
             append_numeral special_chars min_len max_len remaining'
  end.

(** [count_iterator(passwords)] on that iterator: a generator has no
    [len()], so what is left of it is consumed and counted. *)
Fixpoint count_iterator (fuel : nat) (word_set : list string)
    (word_count : Z) (append_numeral : bool) (special_chars : string)
    (min_len : Z) (max_len : bound) (remaining : nat) : gen Z :=
  match remaining with
  | O => mret 0
  | S remaining' =>
      word ← base_passwords fuel word_set word_count append_numeral
               special_chars;
      n ← count_iterator fuel word_set word_count append_numeral
            special_chars min_len max_len remaining';
      mret (if in_length min_len max_len word then 1 + n else n)
  end.

(** Lines 321-394 of [main]: pull the first password within the length
    bounds and, for an entropy estimate, count the rest of the sample. *)
Definition generate (fuel : nat) (a : args) (p : plan) : gen outcome :=
  first ← constrain_word_length_next fuel (p_word_set p) (word_count a)
            (p_append_numeral p) (p_special_set p)
            (p_min_length p) (p_max_length p) (p_sample p);
  match first with
  | None => mret (Exit msg_exhausted)
  | Some (password, remaining) =>
      if entropy_estimate a || verbose a then
        others ← count_iterator fuel (p_word_set p) (word_count a)
                   (p_append_numeral p) (p_special_set p)
                   (p_min_length p) (p_max_length p) remaining;
        let success_size := others + 1 in
        entropy ← lift (estimate_entropy
                          (Z.of_nat (length (p_word_set p))) (word_count a)
                          (p_append_numeral p) (p_special_set p)
                          (sample_size a) success_size);
        mret (Printed password (Some entropy))
      else mret (Printed password None)
  end.

Definition main (fuel : nat) (words_txt : list string) (a : args)
    : gen outcome :=
  checked ← lift (configure words_txt a);
  match checked with
  | inl message => mret (Exit message)
  | inr p => generate fuel a p
  end.
End Generation.

(** ** Notions used to state the properties *)

(** The things that [n] successive calls of [random_choice(things)] return
    when [pos] values of the random source were consumed before. *)
Definition draws {A} (rng : nat → nat) (things : list A) (pos n : nat) : list A :=
  omap (λ k, things !! (rng k `mod` length things)%nat) (seq pos n).

(** The first occurrences in [l] of the things that are not in [seen], in
    the order of [l]. *)
Fixpoint fresh (seen : gset string) (l : list string) : list string :=
  match l with
  | [] => []
  | x :: l' =>
      if bool_decide (x ∈ seen) then fresh seen l'
      else x :: fresh ({[x]} ∪ seen) l'
  end.


(** The shape of a generated password: words of one upper-case letter and
    lower-case letters, then at most one digit, then at most one character
    that is neither a letter nor a digit. *)
Definition is_upper (c : ascii) : bool := between (code "A") (code "Z") (code c).
Definition is_lower (c : ascii) : bool := between (code "a") (code "z") (code c).
Definition is_digit (c : ascii) : bool := between (code "0") (code "9") (code c).
Definition is_alnum (c : ascii) : bool := is_lower c || is_upper c || is_digit c.

Fixpoint all_lower (s : string) : bool :=
  match s with
  | EmptyString => true
  | String c s' => is_lower c && all_lower s'
  end.

Definition capitalized (word : string) : bool :=
  match word with
  | EmptyString => false
  | String c s => is_upper c && all_lower s
  end.

Definition numeral_part (s : string) : bool :=
  match s with
  | EmptyString => true
  | String c EmptyString => is_digit c
  | _ => false
  end.

Definition special_part (s : string) : bool :=
  match s with
  | EmptyString => true
  | String c EmptyString => negb (is_alnum c)
  | _ => false
  end.

(** The password made of the given parts, joined as [base_passwords]
    joins them. *)
Definition compose (words : list string) (numeral special : string) : string :=
  join [join words; numeral; special].

Definition starts_with (P : ascii → bool) (s : string) : bool :=
  match s with
  | EmptyString => false
  | String c _ => P c
  end.

(** [x] is the text between the states [st] and [st1] of one match
    attempt. *)
Definition consumes (x : string) (st st1 : mstate) : Prop :=
  m_rest st = x +:+ m_rest st1
  ∧ m_pos st1 = (m_pos st + String.length x)%nat
  ∧ m_groups st1 = m_groups st.

(** [n] successive pieces of text, each satisfying [P] *)
Inductive pieces (P : string → Prop) : nat → list string → Prop :=
| pieces_nil : pieces P 0 []
| pieces_cons n x xs : P x → pieces P n xs → pieces P (S n) (x :: xs).

(** A string of one character of the class [cls] *)
Definition one_of (cls : ascii → bool) (x : string) : Prop :=
  ∃ c, x = String c "" ∧ cls c = true.

(** The line feed, U+000A *)
Definition newline : string := String "010" "".

(** Sample inputs *)
Definition trailing_newline : string := "Apple1!" +:+ newline.

Definition sample_args : args :=
  Args 2 (Some 5) None true "!?" false 4 8 false false false 10 100.

Definition sample_words : list string :=
  ["Apple"; "Banana"; "Cherry"; "Date"; "Elderberry"; "Fig"].



Definition exact_args : args :=
  Args 2 None (Some 13) true "!?" false 4 8 false false false 10 100.

(** Arithmetic on the codes of the letters and digits *)
(** ** Further notions used to state the properties *)

(** ** Further notions used to state properties *)

(** The word set [main] builds on line 286 from the lines of the word
    list. *)
Definition word_set_of (words_txt : list string) (a : args) : list string :=
  constrain_word_length (take (Z.to_nat (top_words a)) words_txt)
    (Z.max 1 (min_word a)) (Fin (max_word a)).

(** The number of passwords of [ps] within the length bounds *)
Definition accepted_count (min_len : Z) (max_len : bound)
    (ps : list string) : Z :=
  Z.of_nat (length (filter (λ q, in_length min_len max_len q = true) ps)).


(** The argument is no valid stop of [islice] *)
Definition bad_stop (n : Z) : Prop := n < 0 ∨ sys_maxsize < n.

(** The value of the entropy estimate in the terms of the specification *)
Definition spec_entropy (word_set_size word_count : Z)
    (append_numeral : bool) (special_chars : string)
    (sample_size success_size : Z) : R :=
  (spec_word_selection_entropy word_set_size word_count
   + spec_numeral_entropy append_numeral
   + spec_special_char_entropy special_chars
   + spec_sampling_correction sample_size success_size)%R.

(** The two ways to give [main] one length bound as [0] and leave out the
    other *)
Definition zero_and_none (min_length max_length : option Z) : Prop :=
  (min_length = Some 0 ∧ max_length = None)
  ∨ (min_length = None ∧ max_length = Some 0).


(** Further sample inputs *)
Definition negative_count_args : args :=
  Args (-1) (Some 1) None true "!?" false 1 1 false false false 10 100.
Definition report_args : args :=
  Args 2 (Some 5) None true "!?" false 4 8 true false false 3 100.
Definition no_words_args : args :=
  Args 0 (Some 1) None true "!?" false 4 8 false false false 10 100.

Ltac class_arith :=
  unfold is_upper, is_lower, is_digit, between, code in *;
  change (nat_of_ascii "A") with 65%nat in *;
  change (nat_of_ascii "Z") with 90%nat in *;
  change (nat_of_ascii "a") with 97%nat in *;
  change (nat_of_ascii "z") with 122%nat in *;
  change (nat_of_ascii "0") with 48%nat in *;
  change (nat_of_ascii "9") with 57%nat in *;
  rewrite ?andb_true_iff, ?andb_false_iff, ?Nat.leb_le, ?Nat.leb_gt in *;
  lia.

(** * Properties *)

(** ** Real logarithms *)

Lemma ln2_pos : (0 < ln 2)%R.
Proof. rewrite <- ln_1. apply ln_increasing; lra. Qed.

Lemma Rlog2_1 : Rlog2 1 = 0%R.
Proof. unfold Rlog2. rewrite ln_1. pose proof ln2_pos. field. lra. Qed.

Lemma Rlog2_2 : Rlog2 2 = 1%R.
Proof. unfold Rlog2. pose proof ln2_pos. field. lra. Qed.

Lemma Rlog2_lt (x y : R) : (0 < x)%R → (x < y)%R → (Rlog2 x < Rlog2 y)%R.
Proof.
  intros Hx Hxy. unfold Rlog2, Rdiv.
  apply Rmult_lt_compat_r.
  - apply Rinv_0_lt_compat, ln2_pos.
  - by apply ln_increasing.
Qed.


Lemma Rlog2_pos (x : R) : (1 < x)%R → (0 < Rlog2 x)%R.
Proof. intros Hx. rewrite <- Rlog2_1. apply Rlog2_lt; lra. Qed.

Lemma Rlog2_mult (x y : R) :
  (0 < x)%R → (0 < y)%R → Rlog2 (x * y) = (Rlog2 x + Rlog2 y)%R.
Proof.
  intros Hx Hy. unfold Rlog2. rewrite ln_mult by done.
  pose proof ln2_pos. field. lra.
Qed.

Lemma Rlog2_pow (x : R) (n : nat) :
  (0 < x)%R → Rlog2 (x ^ n) = (INR n * Rlog2 x)%R.
Proof.
  intros Hx. induction n as [|n IH].
  - simpl. rewrite Rlog2_1. lra.
  - rewrite S_INR. simpl pow. rewrite Rlog2_mult, IH; [lra | done |].
    by apply pow_lt.
Qed.

Lemma log2_Done (x : Z) : 0 < x → log2 x = Done (Rlog2 (IZR x)).
Proof. intros Hx. unfold log2. by rewrite (proj2 (Z.ltb_lt 0 x) Hx). Qed.

Lemma log2_Raised (x : Z) : x ≤ 0 → log2 x = Raised ValueError.
Proof. intros Hx. unfold log2. by rewrite (proj2 (Z.ltb_ge 0 x) Hx). Qed.

(** log2 3 lies between 84/53 and 65/41. *)
Lemma Rlog2_3_bounds : (84 / 53 < Rlog2 3 < 65 / 41)%R.
Proof.
  split.
  - assert (H : (Rlog2 (2 ^ 84) < Rlog2 (3 ^ 53))%R).
    { apply Rlog2_lt; [apply pow_lt; lra |].
      rewrite !pow_IZR. apply IZR_lt. by vm_compute. }
    rewrite !Rlog2_pow, Rlog2_2 in H by lra.
    replace (INR 84) with 84%R in H by (rewrite INR_IZR_INZ; f_equal).
    replace (INR 53) with 53%R in H by (rewrite INR_IZR_INZ; f_equal).
    lra.
  - assert (H : (Rlog2 (3 ^ 41) < Rlog2 (2 ^ 65))%R).
    { apply Rlog2_lt; [apply pow_lt; lra |].
      rewrite !pow_IZR. apply IZR_lt. by vm_compute. }
    rewrite !Rlog2_pow, Rlog2_2 in H by lra.
    replace (INR 65) with 65%R in H by (rewrite INR_IZR_INZ; f_equal).
    replace (INR 41) with 41%R in H by (rewrite INR_IZR_INZ; f_equal).
    lra.
Qed.

(** ** The sum of [wordset_entropy] *)

Lemma sum_gen_app f (l1 l2 : list Z) (acc : R) :
  sum_gen f (l1 ++ l2) acc = (a ← sum_gen f l1 acc; sum_gen f l2 a).
Proof.
  revert acc. induction l1 as [|n l1 IH]; intros acc; simpl; [done|].
  destruct (f n) as [x| |]; simpl; [apply IH | done | done].
Qed.

Lemma range_S (k : nat) :
  range (Z.of_nat (S k)) = range (Z.of_nat k) ++ [Z.of_nat k].
Proof.
  unfold range. rewrite !Nat2Z.id, seq_S, fmap_app. done.
Qed.

Lemma wordset_entropy_S (N : Z) (k : nat) :
  wordset_entropy N (Z.of_nat (S k)) =
  (a ← wordset_entropy N (Z.of_nat k);
   x ← log2 (N - Z.of_nat k); Done (a + x)%R).
Proof.
  unfold wordset_entropy. rewrite range_S, sum_gen_app. done.
Qed.

Lemma wordset_entropy_big_sum (N : Z) (k : nat) :
  Z.of_nat k ≤ N →
  wordset_entropy N (Z.of_nat k) =
  Done (big_sum (λ n, Rlog2 (IZR (N - Z.of_nat n))) k).
Proof.
  induction k as [|k IH]; intros Hk; [done|].
  rewrite wordset_entropy_S, IH by lia. simpl.
  rewrite log2_Done by lia. done.
Qed.

Lemma wordset_entropy_neg (N wc : Z) : wc ≤ 0 → wordset_entropy N wc = Done 0%R.
Proof.
  intros H. unfold wordset_entropy, range.
  replace (Z.to_nat wc) with 0%nat by lia. done.
Qed.

Lemma wordset_entropy_spec (N word_count : Z) :
  word_count ≤ N →
  wordset_entropy N word_count
  = Done (spec_word_selection_entropy N word_count).
Proof.
  intros Hle. unfold spec_word_selection_entropy.
  destruct (Z.le_gt_cases word_count 0) as [Hneg | Hpos].
  - rewrite wordset_entropy_neg by done.
    replace (Z.to_nat word_count) with 0%nat by lia. done.
  - rewrite <- (Z2Nat.id word_count) at 1 by lia.
    apply wordset_entropy_big_sum. lia.
Qed.

(** C1. For a word count that does not exceed the word-set size [N],
    [wordset_entropy N word_count] returns the sum of [log2 (N - n)] over
    [n = 0 .. word_count - 1]; for [N = 4] and two words that is
    [log2 4 + log2 3], which lies within 0.001 of 3.585. *)
Theorem wordset_entropy_is_sum (N word_count : Z) (Hle : word_count ≤ N) :
  wordset_entropy N word_count = Done (spec_word_selection_entropy N word_count)
  ∧ wordset_entropy 4 2 = Done (Rlog2 4 + Rlog2 3)%R
  ∧ (Rabs (Rlog2 4 + Rlog2 3 - 3585 / 1000) < 1 / 1000)%R.
Proof.
  split; [|split].
  - by apply wordset_entropy_spec.
  - change (wordset_entropy 4 2) with (wordset_entropy 4 (Z.of_nat 2)).
    rewrite wordset_entropy_big_sum by lia.
    simpl. f_equal.
    change (4 - Z.of_nat 0) with 4. change (4 - Z.of_nat 1) with 3. lra.
  - replace 4%R with (2 ^ 2)%R by lra.
    rewrite Rlog2_pow, Rlog2_2 by lra. simpl INR.
    pose proof Rlog2_3_bounds. apply Rabs_def1; lra.
Qed.

Lemma wordset_entropy_is_sum_witness :
  2 ≤ 4 ∧ wordset_entropy 4 2 = Done (spec_word_selection_entropy 4 2).
Proof.
  split; [lia |]. apply (wordset_entropy_is_sum 4 2). lia.
Defined.







(** C7. [estimate_entropy] is the sum of four terms: the word-selection
    entropy, [log2 10] if a numeral is appended and 0 otherwise, [log2] of
    the number of special characters if there are any and 0 otherwise (so
    0 for a single special character), and the sampling correction. *)
Theorem estimate_entropy_four_terms (word_set_size word_count : Z)
    (append_numeral : bool) (special_chars : string)
    (sample_size success_size : Z)
    (Hwords : word_count ≤ word_set_size)
    (Hsample : 1 ≤ sample_size) (Hsuccess : 1 ≤ success_size) :
  numeral_entropy append_numeral = Done (spec_numeral_entropy append_numeral)
  ∧ special_char_entropy special_chars
    = Done (spec_special_char_entropy special_chars)
  ∧ (∀ c, special_char_entropy (String c "") = Done 0%R)
  ∧ estimate_entropy word_set_size word_count append_numeral special_chars
      sample_size success_size
    = Done (spec_word_selection_entropy word_set_size word_count
            + spec_numeral_entropy append_numeral
            + spec_special_char_entropy special_chars
            + spec_sampling_correction sample_size success_size)%R.
Proof.
  assert (Hnum : numeral_entropy append_numeral
                 = Done (spec_numeral_entropy append_numeral)).
  { unfold numeral_entropy, spec_numeral_entropy.
    destruct append_numeral; [by rewrite log2_Done|done]. }
  assert (Hspecial : special_char_entropy special_chars
                     = Done (spec_special_char_entropy special_chars)).
  { unfold special_char_entropy, spec_special_char_entropy.
    case_bool_decide as Hne; [|done].
    apply log2_Done. unfold len. destruct special_chars; [done|]. simpl. lia. }
  split; [done|]. split; [done|]. split.
  - intros c. unfold special_char_entropy. rewrite bool_decide_true by done.
    rewrite log2_Done by done. f_equal. apply Rlog2_1.
  - unfold estimate_entropy.
    rewrite wordset_entropy_spec by done.
    rewrite Hnum, Hspecial. unfold sampled_entropy.
    rewrite !log2_Done by lia. done.
Qed.

Lemma estimate_entropy_four_terms_witness :
  numeral_entropy true = Done (spec_numeral_entropy true)
  ∧ special_char_entropy "!" = Done (spec_special_char_entropy "!")
  ∧ (∀ c, special_char_entropy (String c "") = Done 0%R)
  ∧ estimate_entropy 4 2 true "!" 1000 1000
    = Done (spec_word_selection_entropy 4 2
            + spec_numeral_entropy true
            + spec_special_char_entropy "!"
            + spec_sampling_correction 1000 1000)%R.
Proof. apply (estimate_entropy_four_terms 4 2 true "!" 1000 1000); lia. Defined.

(** ** The generator monad *)

Lemma gen_bind_Done {A B} (m : gen A) (f : A → gen B) pos b pos' :
  (m ≫= f) pos = Done (b, pos') ↔
  ∃ a pos1, m pos = Done (a, pos1) ∧ f a pos1 = Done (b, pos').
Proof.
  unfold mbind, gen_bind. split.
  - destruct (m pos) as [[a pos1]| |]; [eauto | done | done].
  - intros (a & pos1 & -> & ?). done.
Qed.


Lemma gen_bind_step {A B} (m : gen A) (f : A → gen B) pos a pos1 :
  m pos = Done (a, pos1) → (m ≫= f) pos = f a pos1.
Proof. unfold mbind, gen_bind. by intros ->. Qed.

Lemma gen_ret_Done {A} (a b : A) pos pos' :
  (mret a : gen A) pos = Done (b, pos') ↔ a = b ∧ pos = pos'.
Proof. unfold mret, gen_ret. split; [by intros [= -> ->] | by intros [-> ->]]. Qed.

Lemma lift_Done {A} (r : result A) (a : A) pos pos' :
  lift r pos = Done (a, pos') ↔ r = Done a ∧ pos = pos'.
Proof.
  unfold lift. destruct r; simpl; split; try done; try (by intros [? ?]).
  - by intros [= -> ->].
  - by intros [[= ->] ->].
Qed.

Section GenerationFacts.
Variable rng : nat → nat.

Lemma draws_app {A} (things : list A) pos n1 n2 :
  draws rng things pos (n1 + n2)
  = draws rng things pos n1 ++ draws rng things (pos + n1) n2.
Proof. unfold draws. by rewrite seq_app, omap_app. Qed.

Lemma random_choice_Done {A} (things : list A) pos x pos' :
  random_choice rng things pos = Done (x, pos') ↔
  draws rng things pos 1 = [x] ∧ pos' = S pos.
Proof.
  unfold random_choice, draws. simpl.
  destruct (things !! _) as [y|]; split; try done.
  - by intros [= -> <-].
  - by intros [[= ->] ->].
  - by intros [? ?].
Qed.

Lemma random_choice_elem {A} (things : list A) pos x pos' :
  random_choice rng things pos = Done (x, pos') → x ∈ things.
Proof.
  unfold random_choice. destruct (things !! _) as [y|] eqn:Hy; [|done].
  intros [= <- _]. by eapply list_elem_of_lookup_2.
Qed.

Lemma random_choice_nonempty {A} (things : list A) pos :
  things ≠ [] → ∃ x, random_choice rng things pos = Done (x, S pos).
Proof.
  intros Hne. unfold random_choice.
  destruct (things !! _) as [y|] eqn:Hy; [eauto|].
  apply lookup_ge_None in Hy.
  assert (0 < length things)%nat by (destruct things; [done | simpl; lia]).
  pose proof (Nat.mod_upper_bound (rng pos) (length things)). lia.
Qed.

(** *** One word of a stem *)

Lemma non_repeating_Done fuel things seen pos thing seen' pos' :
  non_repeating rng fuel things seen pos = Done ((thing, seen'), pos') →
  thing ∈ things ∧ (thing ∉ seen) ∧ seen' = {[thing]} ∪ seen ∧
  ∃ k, pos' = (pos + S k)%nat ∧
    (∀ rest, fresh seen (draws rng things pos (S k) ++ rest)
             = thing :: fresh seen' rest).
Proof.
  revert pos. induction fuel as [|fuel IH]; intros pos H; [done|].
  simpl in H. apply gen_bind_Done in H. destruct H as (x & pos1 & Hx & H).
  pose proof (random_choice_elem _ _ _ _ Hx) as Hin.
  apply random_choice_Done in Hx. destruct Hx as [Hx ->].
  case_bool_decide as Hseen.
  - apply IH in H. destruct H as (? & ? & ? & k & -> & Hk).
    split; [done|]. split; [done|]. split; [done|].
    exists (S k). split; [lia|]. intros rest.
    change (S (S k)) with (1 + S k)%nat.
    rewrite draws_app, Hx. simpl. rewrite bool_decide_true by done.
    replace (pos + 1)%nat with (S pos) by lia. apply Hk.
  - apply gen_ret_Done in H. destruct H as [[= <- <-] <-].
    split; [done|]. split; [done|]. split; [done|].
    exists 0%nat. split; [lia|]. intros rest.
    rewrite Hx. simpl. by rewrite bool_decide_false by done.
Qed.

Lemma fresh_spec seen l :
  NoDup (fresh seen l) ∧ ∀ x, x ∈ fresh seen l → x ∈ l ∧ x ∉ seen.
Proof.
  revert seen. induction l as [|y l IH]; intros seen; simpl.
  - split; [constructor|]. intros x Hx. by apply elem_of_nil in Hx.
  - case_bool_decide as Hy.
    + destruct (IH seen) as [? Hin]. split; [done|].
      intros x Hx. destruct (Hin x Hx) as [Hl Hs].
      split; [by apply elem_of_cons; right | done].
    + destruct (IH ({[y]} ∪ seen)) as [? Hin]. split.
      * constructor; [|done]. intros Hx. destruct (Hin y Hx) as [_ Hs].
        apply Hs, elem_of_union. left. by apply elem_of_singleton.
      * intros x [->|Hx]%elem_of_cons.
        { split; [by apply elem_of_cons; left | done]. }
        destruct (Hin x Hx) as [Hl Hs]. split; [by apply elem_of_cons; right|].
        intros Hseen. apply Hs, elem_of_union. by right.
Qed.

(** *** The words of a stem *)

Lemma islice_non_repeating_Done fuel things n seen pos words pos' :
  islice_non_repeating rng fuel things n seen pos = Done (words, pos') →
  length words = n ∧ (∀ w, w ∈ words → w ∈ things) ∧
  ∃ k, pos' = (pos + k)%nat ∧ words = fresh seen (draws rng things pos k).
Proof.
  revert seen pos words. induction n as [|n IH]; intros seen pos words H.
  - apply gen_ret_Done in H. destruct H as [<- <-].
    split; [done|]. split; [set_solver|]. exists 0%nat. split; [lia|done].
  - simpl in H. apply gen_bind_Done in H.
    destruct H as ([w seen'] & pos1 & Hw & H).
    apply gen_bind_Done in H. destruct H as (rest & pos2 & Hrest & H).
    apply gen_ret_Done in H. destruct H as [<- <-].
    apply non_repeating_Done in Hw.
    destruct Hw as (Hin & Hnew & -> & k1 & -> & Hk1).
    apply IH in Hrest. destruct Hrest as (Hlen & Hsub & k2 & -> & ->).
    split; [simpl; lia|]. split.
    { intros x [->|Hx]%elem_of_cons; [done | by apply Hsub]. }
    exists (S k1 + k2)%nat. split; [lia|].
    by rewrite draws_app, Hk1.
Qed.

Lemma alpha_words_Done fuel word_set word_count pos words pos' :
  alpha_words rng fuel word_set word_count pos = Done (words, pos') →
  Z.of_nat (length words) = word_count ∧ NoDup words ∧
  (∀ w, w ∈ words → w ∈ word_set) ∧
  (pos ≤ pos')%nat ∧
  words = fresh ∅ (draws rng word_set pos (pos' - pos)).
Proof.
  unfold alpha_words. intros H.
  apply gen_bind_Done in H. destruct H as (n & pos1 & Hn & H).
  apply lift_Done in Hn. destruct Hn as [Hn <-].
  unfold islice_stop in Hn.
  destruct (_ && _) eqn:Hrange; [|done]. injection Hn as <-.
  apply islice_non_repeating_Done in H.
  destruct H as (Hlen & Hsub & k & -> & ->).
  split; [lia|]. split; [apply fresh_spec|]. split; [done|].
  split; [lia|]. by replace (pos + k - pos)%nat with k by lia.
Qed.
End GenerationFacts.

(** ** Enough fuel completes a stem *)

Section EnoughFuel.
Variable rng : nat → nat.

Lemma draws_S {A} (things : list A) pos k :
  draws rng things pos (S k)
  = draws rng things pos 1 ++ draws rng things (S pos) k.
Proof.
  change (S k) with (1 + k)%nat. rewrite draws_app.
  by replace (pos + 1)%nat with (S pos) by lia.
Qed.

Lemma draws_empty {A} pos k : draws rng (@nil A) pos k = [].
Proof.
  revert pos. induction k as [|k IH]; intros pos; [done|].
  rewrite draws_S, IH. unfold draws. simpl. done.
Qed.

Lemma non_repeating_enough things seen pos k fuel :
  fresh seen (draws rng things pos k) ≠ [] →
  (k ≤ fuel)%nat →
  ∃ thing j,
    (j < k)%nat
    ∧ non_repeating rng fuel things seen pos
      = Done ((thing, {[thing]} ∪ seen), (pos + S j)%nat)
    ∧ fresh seen (draws rng things pos k)
      = thing :: fresh ({[thing]} ∪ seen)
                   (draws rng things (pos + S j) (k - S j)).
Proof.
  revert pos fuel. induction k as [|k IH]; intros pos fuel Hfresh Hfuel.
  { by destruct Hfresh. }
  destruct fuel as [|fuel]; [lia|].
  destruct things as [|t things].
  { by rewrite draws_empty in Hfresh. }
  destruct (random_choice_nonempty rng (t :: things) pos ltac:(done))
    as [x Hx].
  cbn [non_repeating]. rewrite (gen_bind_step _ _ _ _ _ Hx).
  apply random_choice_Done in Hx. destruct Hx as [Hx _].
  rewrite draws_S, Hx in Hfresh |- *. cbn [app fresh] in Hfresh |- *.
  case_bool_decide as Hseen.
  - destruct (IH (S pos) fuel Hfresh ltac:(lia)) as (w & j & Hj & Hw & Hrest).
    exists w, (S j). split; [lia|]. split.
    + rewrite Hw. do 2 f_equal. lia.
    + rewrite Hrest. do 3 f_equal; lia.
  - exists x, 0%nat. split; [lia|]. split.
    + unfold mret, gen_ret. do 2 f_equal. lia.
    + do 3 f_equal; lia.
Qed.

Lemma islice_non_repeating_enough things n seen pos k fuel :
  (n ≤ length (fresh seen (draws rng things pos k)))%nat →
  (k ≤ fuel)%nat →
  ∃ pos', islice_non_repeating rng fuel things n seen pos
          = Done (take n (fresh seen (draws rng things pos k)), pos').
Proof.
  revert seen pos k. induction n as [|n IH]; intros seen pos k Hn Hfuel.
  { exists pos. by rewrite take_0. }
  destruct (non_repeating_enough things seen pos k fuel)
    as (w & j & Hj & Hw & Hrest); [|done|].
  { intros Hnil. rewrite Hnil in Hn. simpl in Hn. lia. }
  rewrite Hrest in Hn |- *. simpl in Hn.
  destruct (IH ({[w]} ∪ seen) (pos + S j)%nat (k - S j)%nat
              ltac:(lia) ltac:(lia)) as (pos' & Hwords).
  exists pos'. cbn [islice_non_repeating take].
  rewrite (gen_bind_step _ _ _ _ _ Hw).
  by rewrite (gen_bind_step _ _ _ _ _ Hwords).
Qed.

Lemma gen_alpha_passwords_enough word_set word_count pos k fuel :
  0 ≤ word_count ≤ sys_maxsize →
  word_count ≤ Z.of_nat (length (fresh ∅ (draws rng word_set pos k))) →
  (k ≤ fuel)%nat →
  ∃ pos', gen_alpha_passwords rng fuel word_set word_count pos
          = Done (join (take (Z.to_nat word_count)
                          (fresh ∅ (draws rng word_set pos k))), pos').
Proof.
  intros [H0 Hmax] Hk Hfuel.
  destruct (islice_non_repeating_enough word_set (Z.to_nat word_count) ∅
              pos k fuel ltac:(lia) Hfuel) as (pos' & Hwords).
  exists pos'. unfold gen_alpha_passwords, alpha_words.
  erewrite gen_bind_step; last first.
  { erewrite gen_bind_step; [exact Hwords|].
    apply lift_Done. split; [|done]. unfold islice_stop.
    rewrite (proj2 (Z.leb_le 0 word_count)) by lia.
    by rewrite (proj2 (Z.leb_le word_count sys_maxsize)) by lia. }
  done.
Qed.
End EnoughFuel.

Section SamplingFacts.
Variable rng : nat → nat.
Variable fuel : nat.
Variable word_set : list string.
Variable word_count : Z.
Variable append_numeral : bool.
Variable special_chars : string.
Variable min_len : Z.
Variable max_len : bound.

Local Notation "'candidate'" :=
  (base_passwords rng fuel word_set word_count append_numeral special_chars).
Local Notation "'candidates'" :=
  (batch rng fuel word_set word_count append_numeral special_chars).
Local Notation "'accepted'" := (in_length min_len max_len).

Lemma batch_length n pos ps pos' :
  candidates n pos = Done (ps, pos') → length ps = n.
Proof.
  revert pos ps. induction n as [|n IH]; intros pos ps H.
  - apply gen_ret_Done in H. by destruct H as [<- _].
  - simpl in H. apply gen_bind_Done in H. destruct H as (q & posq & Hq & H).
    apply gen_bind_Done in H. destruct H as (qs & pos1 & Hqs & H).
    apply gen_ret_Done in H. destruct H as [<- <-]. simpl.
    f_equal. eapply IH, Hqs.
Qed.



Lemma batch_app n1 n2 pos ps1 pos1 ps2 pos2 :
  candidates n1 pos = Done (ps1, pos1) →
  candidates n2 pos1 = Done (ps2, pos2) →
  candidates (n1 + n2) pos = Done (ps1 ++ ps2, pos2).
Proof.
  revert pos ps1. induction n1 as [|n1 IH]; intros pos ps1 H1 H2.
  - apply gen_ret_Done in H1. by destruct H1 as [<- <-].
  - simpl in H1. apply gen_bind_Done in H1.
    destruct H1 as (q & posq & Hq & H1).
    apply gen_bind_Done in H1. destruct H1 as (qs & pos' & Hqs & H1).
    apply gen_ret_Done in H1. destruct H1 as [<- <-].
    change (candidates (S n1 + n2) pos)
      with ((q ← candidate; qs ← candidates (n1 + n2); mret (q :: qs)) pos).
    rewrite (gen_bind_step _ _ _ _ _ Hq).
    by rewrite (gen_bind_step _ _ _ _ _ (IH _ _ Hqs H2)).
Qed.

(** The lazy filter yields the first accepted candidate: the ones pulled
    before it were all rejected. *)
Lemma next_Some n pos p remaining pos' :
  constrain_word_length_next rng fuel word_set word_count append_numeral
    special_chars min_len max_len n pos = Done (Some (p, remaining), pos') ↔
  ∃ ps pos1,
    n = S (length ps + remaining)
    ∧ candidates (length ps) pos = Done (ps, pos1)
    ∧ Forall (λ q, accepted q = false) ps
    ∧ candidate pos1 = Done (p, pos')
    ∧ accepted p = true.
Proof.
  revert pos. induction n as [|n IH]; intros pos.
  - split; [done|]. intros (ps & ? & ? & _). lia.
  - simpl. split.
    + intros H. apply gen_bind_Done in H. destruct H as (q & posq & Hq & H).
      destruct (accepted q) eqn:Hacc.
      * apply gen_ret_Done in H. destruct H as [[= -> ->] ->].
        exists [], pos. by repeat split.
      * apply IH in H. destruct H as (ps & pos1 & -> & Hps & Hrej & Hp & ?).
        exists (q :: ps), pos1. repeat split; [| by constructor | done ..].
        simpl. rewrite (gen_bind_step _ _ _ _ _ Hq).
        by rewrite (gen_bind_step _ _ _ _ _ Hps).
    + intros (ps & pos1 & Hn & Hps & Hrej & Hp & Hacc).
      destruct ps as [|q ps].
      * apply gen_ret_Done in Hps. destruct Hps as [_ <-].
        rewrite (gen_bind_step _ _ _ _ _ Hp), Hacc.
        simpl in Hn. by replace remaining with n by lia.
      * simpl in Hps. apply gen_bind_Done in Hps.
        destruct Hps as (q' & posq & Hq & Hps).
        apply gen_bind_Done in Hps. destruct Hps as (qs & pos2 & Hqs & Hps).
        apply gen_ret_Done in Hps. destruct Hps as [[= -> ->] ->].
        apply Forall_cons in Hrej. destruct Hrej as [Hq' Hrej].
        rewrite (gen_bind_step _ _ _ _ _ Hq), Hq'.
        apply IH. exists ps, pos1. simpl in Hn.
        repeat split; [lia | done ..].
Qed.


(** Counting consumes what is left of the sample. *)
Lemma count_iterator_Done n pos c pos' :
  count_iterator rng fuel word_set word_count append_numeral special_chars
    min_len max_len n pos = Done (c, pos') →
  ∃ ps, candidates n pos = Done (ps, pos')
        ∧ c = Z.of_nat (length (filter (λ q, accepted q = true) ps)).
Proof.
  revert pos c. induction n as [|n IH]; intros pos c H; simpl in H.
  - apply gen_ret_Done in H. destruct H as [<- <-]. by exists [].
  - apply gen_bind_Done in H. destruct H as (q & posq & Hq & H).
    apply gen_bind_Done in H. destruct H as (m & pos1 & Hm & H).
    apply gen_ret_Done in H. destruct H as [<- <-].
    apply IH in Hm. destruct Hm as (ps & Hps & ->).
    exists (q :: ps). split.
    + simpl. rewrite (gen_bind_step _ _ _ _ _ Hq).
      by rewrite (gen_bind_step _ _ _ _ _ Hps).
    + rewrite filter_cons. destruct (accepted q) eqn:Hacc.
      * rewrite decide_True by done. simpl length. lia.
      * rewrite decide_False by (by intros ?). done.
Qed.
End SamplingFacts.

(** ** The checks of [main] *)

Lemma configure_inr words_txt a p :
  configure words_txt a = Done (inr p) →
  effective_lengths a = Some (p_min_length p, p_max_length p)
  ∧ p_word_set p ≠ []
  ∧ 0 ≤ sample_size a ∧ p_sample p = Z.to_nat (sample_size a)
  ∧ p_append_numeral p = negb (no_append_numeral a)
  ∧ p_special_set p = (if append_char a then special_set a else "").
Proof.
  unfold configure, effective_lengths.
  destruct (min_word a >? max_word a); [done|].
  destruct (default_lengths _ _) as [[lo|] [hi|]]; try done.
  destruct (gt_bound lo hi); [done|].
  destruct (gt_bound _ hi); [done|].
  destruct (_ <? Z.max 1 lo); [done|].
  destruct (base_word_set _ _) as [top| |]; simpl; [|done..].
  case_bool_decide; [done|].
  unfold log2 at 1. destruct (0 <? _) eqn:Hsize; simpl; [|done].
  unfold islice_stop. destruct (_ && _) eqn:Hsample; simpl; [|done].
  intros [= <-]. simpl. repeat split; [| lia].
  intros Hnil. rewrite Hnil in Hsize. done.
Qed.

Section MainFacts.
Variable rng : nat → nat.
Variable fuel : nat.

Lemma main_configured words_txt a p pos :
  configure words_txt a = Done (inr p) →
  main rng fuel words_txt a pos = generate rng fuel a p pos.
Proof.
  intros H. unfold main, lift, mbind, gen_bind. by rewrite H.
Qed.

Lemma generate_Printed a p pos pw e pos' :
  generate rng fuel a p pos = Done (Printed pw e, pos') →
  ∃ remaining pos1,
    constrain_word_length_next rng fuel (p_word_set p) (word_count a)
      (p_append_numeral p) (p_special_set p) (p_min_length p)
      (p_max_length p) (p_sample p) pos
    = Done (Some (pw, remaining), pos1)
    ∧ if entropy_estimate a || verbose a
      then ∃ c, count_iterator rng fuel (p_word_set p) (word_count a)
                  (p_append_numeral p) (p_special_set p) (p_min_length p)
                  (p_max_length p) remaining pos1 = Done (c, pos')
      else pos1 = pos' ∧ e = None.
Proof.
  unfold generate. intros H.
  apply gen_bind_Done in H. destruct H as (first & pos1 & Hfirst & H).
  destruct first as [[pw' remaining]|].
  2: { apply gen_ret_Done in H. by destruct H. }
  exists remaining, pos1.
  destruct (entropy_estimate a || verbose a).
  - apply gen_bind_Done in H. destruct H as (c & pos2 & Hc & H).
    apply gen_bind_Done in H. destruct H as (x & pos3 & Hx & H).
    apply lift_Done in Hx. destruct Hx as [_ <-].
    apply gen_ret_Done in H. destruct H as [[= <- <-] <-]. eauto.
  - apply gen_ret_Done in H. by destruct H as [[= <- <-] <-].
Qed.


(** A printed password passed the length filter. *)
Lemma main_Printed_in_length words_txt a pos pw e pos' :
  main rng fuel words_txt a pos = Done (Printed pw e, pos') →
  ∃ lo hi, effective_lengths a = Some (lo, hi)
           ∧ in_length lo hi pw = true.
Proof.
  intros H.
  destruct (configure words_txt a) as [[msg|p]| |] eqn:Hcfg.
  - unfold main, lift, mbind, gen_bind in H. by rewrite Hcfg in H.
  - rewrite (main_configured _ _ _ _ Hcfg) in H.
    apply generate_Printed in H.
    destruct H as (remaining & pos1 & Hnext & _).
    apply next_Some in Hnext.
    destruct Hnext as (ps & pos2 & _ & _ & _ & _ & Hacc).
    apply configure_inr in Hcfg. destruct Hcfg as (Hlen & _). eauto.
  - unfold main, lift, mbind, gen_bind in H. by rewrite Hcfg in H.
  - unfold main, lift, mbind, gen_bind in H. by rewrite Hcfg in H.
Qed.
End MainFacts.


(** C4. Every stem that [gen_alpha_passwords] yields is the concatenation,
    in draw order, of exactly [word_count] words of the word set, no two of
    them equal: the words are the first occurrences among the words drawn
    for that stem.  And a stem is yielded as soon as the draws hold
    [word_count] different words: with at least [k] units of fuel when the
    first [k] draws do. *)
Theorem stem_words_distinct (rng : nat → nat) (fuel : nat)
    (word_set : list string) (word_count : Z) (pos : nat) :
  (∀ stem pos',
     gen_alpha_passwords rng fuel word_set word_count pos = Done (stem, pos') →
     ∃ words,
       stem = join words
       ∧ Z.of_nat (length words) = word_count
       ∧ NoDup words
       ∧ (∀ w, w ∈ words → w ∈ word_set)
       ∧ (pos ≤ pos')%nat
       ∧ words = fresh ∅ (draws rng word_set pos (pos' - pos)))
  ∧ (∀ k,
       0 ≤ word_count ≤ sys_maxsize →
       word_count ≤ Z.of_nat (length (fresh ∅ (draws rng word_set pos k))) →
       (k ≤ fuel)%nat →
       ∃ pos',
         gen_alpha_passwords rng fuel word_set word_count pos
         = Done (join (take (Z.to_nat word_count)
                         (fresh ∅ (draws rng word_set pos k))), pos')).
Proof.
  split.
  - intros stem pos' Hstem. unfold gen_alpha_passwords in Hstem.
    apply gen_bind_Done in Hstem. destruct Hstem as (words & pos1 & Hw & H).
    apply gen_ret_Done in H. destruct H as [<- <-].
    apply alpha_words_Done in Hw. destruct Hw as (? & ? & ? & ? & ?).
    by exists words.
  - intros k. apply gen_alpha_passwords_enough.
Qed.

Lemma stem_words_distinct_witness :
  ∃ words,
    "AppleBanana" = join words
    ∧ Z.of_nat (length words) = 2
    ∧ NoDup words
    ∧ (∀ w, w ∈ words → w ∈ ["Apple"; "Banana"; "Cherry"])
    ∧ (0 ≤ 3)%nat
    ∧ words = fresh ∅ (draws (λ k, k / 2)%nat ["Apple"; "Banana"; "Cherry"]
                         0 (3 - 0)).
Proof.
  apply (proj1 (stem_words_distinct (λ k, k / 2)%nat 5
                  ["Apple"; "Banana"; "Cherry"] 2 0%nat) "AppleBanana" 3%nat).
  vm_compute. reflexivity.
Defined.



(** ** Stems that cannot be completed *)

Section Starvation.
Variable rng : nat → nat.
Variable fuel : nat.

Lemma non_repeating_not_Raised things seen pos e :
  things ≠ [] → non_repeating rng fuel things seen pos ≠ Raised e.
Proof.
  intros Hne. revert pos. induction fuel as [|fuel' IH]; intros pos; [done|].
  simpl. destruct (random_choice_nonempty rng things pos Hne) as [x Hx].
  rewrite (gen_bind_step _ _ _ _ _ Hx).
  case_bool_decide; [apply IH | done].
Qed.


End Starvation.




(** C10. Given a non-zero [max_length] and no [min_length], [main] takes
    the minimum length to be [max_length], so a printed password has
    exactly [max_length] characters; and with no [min_length] the bounds
    default to 24 and infinity only when [max_length] is absent too. *)
Theorem max_length_alone_fixes_length (rng : nat → nat) (fuel : nat)
    (words_txt : list string) (a : args) (m : Z)
    (Hmin : min_length a = None) (Hmax : max_length a = Some m)
    (Hm : m ≠ 0) :
  default_lengths (min_length a) (max_length a) = (Some m, Some (Fin m))
  ∧ (∀ pos pos' password entropy,
       main rng fuel words_txt a pos = Done (Printed password entropy, pos') →
       len password = m)
  ∧ (∀ max_length',
       default_lengths None max_length' = (Some 24, Some Inf)
       ↔ max_length' = None).
Proof.
  assert (Hdef : default_lengths (min_length a) (max_length a)
                 = (Some m, Some (Fin m))).
  { rewrite Hmin, Hmax. unfold default_lengths, truthy.
    by rewrite (proj2 (Z.eqb_neq m 0) Hm). }
  split; [done|]. split.
  - intros pos pos' pw e H.
    apply main_Printed_in_length in H. destruct H as (lo & hi & Heff & Hin).
    unfold effective_lengths in Heff. rewrite Hdef in Heff.
    injection Heff as <- <-. unfold in_length in Hin. simpl in Hin. lia.
  - intros mx. split; [|by intros ->].
    destruct mx as [z|]; [|done].
    unfold default_lengths, truthy. simpl.
    destruct (z =? 0); simpl; intros [=].
Qed.

Lemma max_length_alone_fixes_length_witness :
  len "AppleBanana2?" = 13.
Proof.
  apply (proj1 (proj2 (max_length_alone_fixes_length (λ k, k) 10 sample_words
           exact_args 13 eq_refl eq_refl ltac:(lia)))
           0%nat 4%nat "AppleBanana2?" None).
  vm_compute. reflexivity.
Defined.

(** ** Character classes *)

Lemma class_upper c : class_matches false [Range "A" "Z"] c = is_upper c.
Proof. unfold class_matches, is_upper. simpl. by rewrite orb_false_r. Qed.

Lemma class_lower c : class_matches false [Range "a" "z"] c = is_lower c.
Proof. unfold class_matches, is_lower. simpl. by rewrite orb_false_r. Qed.

Lemma class_digit c : class_matches false [Range "0" "9"] c = is_digit c.
Proof. unfold class_matches, is_digit. simpl. by rewrite orb_false_r. Qed.

Lemma class_non_alnum c :
  class_matches true [Range "a" "z"; Range "A" "Z"; Range "0" "9"] c
  = negb (is_alnum c).
Proof.
  unfold class_matches, is_alnum, is_lower, is_upper, is_digit. simpl.
  by rewrite orb_false_r, orb_assoc.
Qed.

Lemma upper_not_lower c : is_upper c = true → is_lower c = false.
Proof. intros H. class_arith. Qed.

Lemma digit_not_letter c :
  is_digit c = true → is_upper c = false ∧ is_lower c = false.
Proof. intros H. split; class_arith. Qed.

Lemma non_alnum_inv c :
  is_alnum c = false →
  is_upper c = false ∧ is_lower c = false ∧ is_digit c = false.
Proof.
  unfold is_alnum. intros H.
  apply orb_false_iff in H. destruct H as [H ?].
  apply orb_false_iff in H. by destruct H.
Qed.

(** ** Strings *)

Lemma string_app_length (s t : string) :
  String.length (s +:+ t) = (String.length s + String.length t)%nat.
Proof. induction s as [|c s IH]; simpl; [done | by rewrite IH]. Qed.

Lemma substring_prefix (s t : string) :
  String.substring 0 (String.length s) (s +:+ t) = s.
Proof.
  induction s as [|c s IH]; simpl.
  - by destruct t.
  - by rewrite IH.
Qed.

Lemma string_app_nil_l (t : string) : "" +:+ t = t.
Proof. reflexivity. Qed.

Lemma string_app_cons c (s t : string) : String c s +:+ t = String c (s +:+ t).
Proof. reflexivity. Qed.

(** ** Unfolding equations of the matcher *)

Lemma repeat_loop_S body lo hi fuel count st k :
  repeat_loop body lo hi (S fuel) count st k =
  if may_repeat count hi then
    match body st (λ st',
            if (m_pos st <? m_pos st')%nat
            then repeat_loop body lo hi fuel (S count) st' k
            else None) with
    | Some m => Some m
    | None => if (lo <=? count)%nat then k st else None
    end
  else if (lo <=? count)%nat then k st else None.
Proof. reflexivity. Qed.

Lemma repeat_loop_0 body lo hi count st k :
  repeat_loop body lo hi 0 count st k
  = if (lo <=? count)%nat then k st else None.
Proof. reflexivity. Qed.

Lemma rmatch_Class negated items pos rest g k :
  rmatch (Class negated items) (MState pos rest g) k =
  match rest with
  | String c s =>
      if class_matches negated items c then k (MState (S pos) s g) else None
  | EmptyString => None
  end.
Proof. reflexivity. Qed.

Lemma rmatch_Cat r1 r2 st k :
  rmatch (Cat r1 r2) st k = rmatch r1 st (λ st', rmatch r2 st' k).
Proof. reflexivity. Qed.

Lemma rmatch_Repeat lo hi r st k :
  rmatch (Repeat lo hi r) st k
  = repeat_loop (rmatch r) lo hi (S (String.length (m_rest st))) 0 st k.
Proof. reflexivity. Qed.

Lemma rmatch_Group i r st k :
  rmatch (Group i r) st k = rmatch r st (λ st', k (close_group i st st')).
Proof. reflexivity. Qed.

(** ** Greedy repetition *)

(** The greedy star over a run of lower-case letters takes the whole run. *)
Lemma lower_star lows t pos g fuel count k m :
  all_lower lows = true →
  starts_with is_lower t = false →
  (String.length lows < fuel)%nat →
  k (MState (pos + String.length lows) t g) = Some m →
  repeat_loop (rmatch lower) 0 None fuel count (MState pos (lows +:+ t) g) k
  = Some m.
Proof.
  revert pos fuel count.
  induction lows as [|c lows IH]; intros pos fuel count Hlow Ht Hfuel Hk.
  - destruct fuel as [|fuel]; [simpl in Hfuel; lia|].
    simpl in Hk. rewrite Nat.add_0_r in Hk.
    rewrite string_app_nil_l, repeat_loop_S. unfold lower at 1.
    rewrite rmatch_Class. cbn [may_repeat Nat.leb].
    destruct t as [|c t]; [done|].
    simpl in Ht. by rewrite class_lower, Ht.
  - destruct fuel as [|fuel]; [simpl in Hfuel; lia|].
    simpl in Hlow. apply andb_true_iff in Hlow. destruct Hlow as [Hc Hlow].
    rewrite string_app_cons, repeat_loop_S. unfold lower at 1.
    rewrite rmatch_Class, class_lower, Hc. cbn [may_repeat m_pos].
    rewrite (proj2 (Nat.ltb_lt pos (S pos))) by lia.
    rewrite (IH (S pos) fuel (S count)); [done | done | done | |].
    + simpl in Hfuel. lia.
    + simpl in Hk. by replace (S pos + String.length lows)%nat
        with (pos + S (String.length lows))%nat by lia.
Qed.

Lemma join_cons (w : string) (ws : list string) : join (w :: ws) = w +:+ join ws.
Proof. reflexivity. Qed.

Lemma string_app_assoc (s t u : string) : (s +:+ t) +:+ u = s +:+ (t +:+ u).
Proof. induction s as [|c s IH]; [done|]. by rewrite !string_app_cons, IH. Qed.

Lemma join_starts_upper (ws : list string) (t : string) :
  Forall (λ w, capitalized w = true) ws →
  starts_with is_lower t = false →
  starts_with is_lower (join ws +:+ t) = false.
Proof.
  intros Hws Ht. destruct Hws as [|w ws Hw Hws]; [done|].
  destruct w as [|c w]; [done|]. simpl in Hw.
  apply andb_true_iff in Hw. destruct Hw as [Hc _].
  rewrite join_cons, !string_app_cons. simpl. by apply upper_not_lower.
Qed.

(** One word, matched by "[A-Z][a-z]*" *)
Lemma word_re_match w t pos g k m :
  capitalized w = true →
  starts_with is_lower t = false →
  k (MState (pos + String.length w) t g) = Some m →
  rmatch word_re (MState pos (w +:+ t) g) k = Some m.
Proof.
  intros Hw Ht Hk. destruct w as [|c w]; [done|].
  simpl in Hw. apply andb_true_iff in Hw. destruct Hw as [Hc Hw].
  unfold word_re. rewrite rmatch_Cat, string_app_cons. unfold upper.
  rewrite rmatch_Class, class_upper, Hc, rmatch_Repeat.
  apply lower_star; [done | done | |].
  - cbn [m_rest]. rewrite string_app_length. lia.
  - simpl in Hk. by replace (S pos + String.length w)%nat
      with (pos + S (String.length w))%nat by lia.
Qed.

(** The greedy repetition inside group 1 takes every word. *)
Lemma words_plus ws t pos g fuel count k m :
  Forall (λ w, capitalized w = true) ws →
  starts_with is_lower t = false →
  starts_with is_upper t = false →
  (String.length (join ws) < fuel)%nat →
  (1 ≤ count + length ws)%nat →
  k (MState (pos + String.length (join ws)) t g) = Some m →
  repeat_loop (rmatch word_re) 1 None fuel count
    (MState pos (join ws +:+ t) g) k = Some m.
Proof.
  intros Hws Hlow Hup. revert pos fuel count.
  induction Hws as [|w ws Hw Hws IH]; intros pos fuel count Hfuel Hcount Hk.
  - simpl in Hcount, Hk. rewrite Nat.add_0_r in Hk.
    assert (Hstop : (1 <=? count)%nat = true) by (apply Nat.leb_le; lia).
    change (join [] +:+ t) with t.
    destruct fuel as [|fuel]; [by rewrite repeat_loop_0, Hstop|].
    rewrite repeat_loop_S. cbn [may_repeat].
    unfold word_re at 1. rewrite rmatch_Cat. unfold upper.
    rewrite rmatch_Class. destruct t as [|c t]; [by rewrite Hstop|].
    simpl in Hup. by rewrite class_upper, Hup, Hstop.
  - destruct fuel as [|fuel]; [lia|].
    rewrite join_cons, string_app_assoc, repeat_loop_S. cbn [may_repeat].
    rewrite join_cons, string_app_length in Hfuel, Hk.
    erewrite word_re_match; [done | done | by apply join_starts_upper |].
    cbn [m_pos].
    assert (0 < String.length w)%nat by (destruct w; [done | simpl; lia]).
    rewrite (proj2 (Nat.ltb_lt pos (pos + String.length w))) by lia.
    apply IH; [lia | simpl; lia |].
    by rewrite <- Nat.add_assoc.
Qed.

(** [re.findall] gives the words back. *)
Lemma findall_words ws pos fuel :
  Forall (λ w, capitalized w = true) ws →
  (length ws < fuel)%nat →
  findall_from word_re fuel pos (join ws) = ws.
Proof.
  intros Hws. revert pos fuel.
  induction Hws as [|w ws Hw Hws IH]; intros pos fuel Hfuel.
  - destruct fuel as [|fuel]; [lia|]. done.
  - destruct fuel as [|fuel]; [lia|].
    cbn [findall_from]. rewrite join_cons.
    assert (Hm : rmatch word_re (MState pos (w +:+ join ws) []) Some
                 = Some (MState (pos + String.length w) (join ws) [])).
    { apply word_re_match; [done | | done].
      rewrite <- (join_starts_upper ws "" Hws eq_refl). f_equal.
      clear. induction (join ws) as [|c s IH]; [done|].
      by rewrite string_app_cons, <- IH. }
    rewrite Hm. destruct w as [|c w]; [done|].
    rewrite string_app_cons. cbn [m_pos m_rest].
    rewrite (proj2 (Nat.ltb_lt pos (pos + String.length (String c w)))
               ltac:(simpl; lia)).
    unfold span. cbn [m_pos m_rest].
    replace (pos + String.length (String c w) - pos)%nat
      with (String.length (String c w)) by lia.
    rewrite <- string_app_cons, substring_prefix. f_equal.
    apply IH. simpl in Hfuel. lia.
Qed.

Lemma re_findall_words ws :
  Forall (λ w, capitalized w = true) ws →
  re_findall word_re (join ws) = ws.
Proof.
  intros Hws. apply findall_words; [done|].
  assert (length ws ≤ String.length (join ws))%nat; [|lia].
  induction Hws as [|w ws Hw Hws IH]; [done|].
  rewrite join_cons, string_app_length. simpl.
  destruct w; [done | simpl; lia].
Qed.

(** An optional single character of a class: "[...]?" *)
Lemma optional_class_skip negated items pos rest g k :
  starts_with (class_matches negated items) rest = false →
  rmatch (Repeat 0 (Some 1%nat) (Class negated items)) (MState pos rest g) k
  = k (MState pos rest g).
Proof.
  intros Hrest. rewrite rmatch_Repeat, repeat_loop_S.
  change (may_repeat 0 (Some 1%nat)) with true. cbn [Nat.leb].
  rewrite rmatch_Class. destruct rest as [|c s]; [done|].
  simpl in Hrest. by rewrite Hrest.
Qed.

Lemma optional_class_take negated items pos c s g k m :
  class_matches negated items c = true →
  k (MState (S pos) s g) = Some m →
  rmatch (Repeat 0 (Some 1%nat) (Class negated items))
    (MState pos (String c s) g) k = Some m.
Proof.
  intros Hc Hk. rewrite rmatch_Repeat, repeat_loop_S.
  change (may_repeat 0 (Some 1%nat)) with true.
  rewrite rmatch_Class, Hc. cbn [m_pos].
  rewrite (proj2 (Nat.ltb_lt pos (S pos))) by lia.
  destruct (String.length _) as [|fuel].
  - by rewrite repeat_loop_0, Hk.
  - rewrite repeat_loop_S. change (may_repeat 1 (Some 1%nat)) with false.
    cbn [Nat.leb]. by rewrite Hk.
Qed.

Lemma rmatch_Bol_start rest g k :
  rmatch Bol (MState 0 rest g) k = k (MState 0 rest g).
Proof. reflexivity. Qed.

Lemma rmatch_Eol_end pos g k :
  rmatch Eol (MState pos "" g) k = k (MState pos "" g).
Proof. cbn [rmatch m_rest]. by rewrite bool_decide_true by (by left). Qed.

(** The tail of the pattern on the numeral and the special character *)
Lemma tail_match numeral special pos g :
  numeral_part numeral = true →
  special_part special = true →
  rmatch (Cat (Group 2 (Repeat 0 (Some 1%nat) digit))
         (Cat (Group 3 (Repeat 0 (Some 1%nat) non_alnum)) Eol))
    (MState pos (numeral +:+ special) g) Some
  = Some (MState (pos + String.length (numeral +:+ special)) ""
            ((3%nat, special) :: (2%nat, numeral) :: g)).
Proof.
  intros Hn Hs. unfold digit, non_alnum.
  destruct numeral as [|d [|? ?]]; [| |done];
    (destruct special as [|c [|? ?]]; [| |done]).
  - rewrite string_app_nil_l, rmatch_Cat, rmatch_Group.
    rewrite optional_class_skip by done.
    unfold close_group, span. cbn [m_pos m_rest m_groups].
    rewrite rmatch_Cat, rmatch_Group, optional_class_skip by done.
    unfold close_group, span. cbn [m_pos m_rest m_groups].
    rewrite rmatch_Eol_end, !Nat.sub_diag. simpl. by rewrite Nat.add_0_r.
  - simpl in Hs. apply negb_true_iff in Hs.
    pose proof (non_alnum_inv _ Hs) as (Hup & Hlow & Hdig).
    rewrite string_app_nil_l, rmatch_Cat, rmatch_Group.
    rewrite optional_class_skip by (cbn [starts_with]; by rewrite class_digit).
    unfold close_group at 1, span. cbn [m_pos m_rest m_groups].
    rewrite rmatch_Cat, rmatch_Group.
    apply optional_class_take; [by rewrite class_non_alnum, Hs|].
    unfold close_group, span. cbn [m_pos m_rest m_groups].
    rewrite rmatch_Eol_end, !Nat.sub_diag.
    replace (S pos - pos)%nat with 1%nat by lia. simpl.
    by replace (pos + 1)%nat with (S pos) by lia.
  - simpl in Hn.
    rewrite rmatch_Cat, rmatch_Group.
    apply optional_class_take; [by rewrite class_digit|].
    unfold close_group at 1, span. cbn [m_pos m_rest m_groups].
    rewrite rmatch_Cat, rmatch_Group, optional_class_skip by done.
    unfold close_group, span. cbn [m_pos m_rest m_groups].
    rewrite rmatch_Eol_end, !Nat.sub_diag.
    replace (S pos - pos)%nat with 1%nat by lia. simpl.
    by replace (pos + 1)%nat with (S pos) by lia.
  - simpl in Hn, Hs. apply negb_true_iff in Hs.
    pose proof (non_alnum_inv _ Hs) as (Hup & Hlow & Hdig).
    rewrite string_app_cons, string_app_nil_l, rmatch_Cat, rmatch_Group.
    apply optional_class_take; [by rewrite class_digit|].
    unfold close_group at 1, span. cbn [m_pos m_rest m_groups].
    rewrite rmatch_Cat, rmatch_Group.
    apply optional_class_take; [by rewrite class_non_alnum, Hs|].
    unfold close_group, span. cbn [m_pos m_rest m_groups].
    rewrite rmatch_Eol_end.
    replace (S pos - pos)%nat with 1%nat by lia.
    replace (S (S pos) - S pos)%nat with 1%nat by lia. simpl.
    by replace (pos + 2)%nat with (S (S pos)) by lia.
Qed.

(** ** Round trip *)

Lemma compose_eq words numeral special :
  compose words numeral special = join words +:+ (numeral +:+ special).
Proof.
  unfold compose. rewrite !join_cons. do 2 f_equal.
  clear. induction special as [|c s IH]; [done|]. by rewrite string_app_cons, IH.
Qed.

Lemma tail_starts numeral special :
  numeral_part numeral = true →
  special_part special = true →
  starts_with is_lower (numeral +:+ special) = false
  ∧ starts_with is_upper (numeral +:+ special) = false.
Proof.
  intros Hn Hs.
  destruct numeral as [|d [|? ?]]; [| |done].
  - rewrite string_app_nil_l. destruct special as [|c [|? ?]]; [done| |done].
    simpl in *. apply negb_true_iff, non_alnum_inv in Hs. by destruct Hs as (?&?&?).
  - rewrite string_app_cons. simpl in *. apply digit_not_letter in Hn. by destruct Hn.
Qed.

(** The pattern of [password_parts] matches a composed password to its
    end, and its three groups capture the stem, the digit and the special
    character. *)
Lemma re_match_compose words numeral special :
  words ≠ [] →
  Forall (λ w, capitalized w = true) words →
  numeral_part numeral = true →
  special_part special = true →
  re_match password_re (compose words numeral special)
  = Some (MState (String.length (compose words numeral special)) ""
            [(3%nat, special); (2%nat, numeral); (1%nat, join words)]).
Proof.
  intros Hne Hws Hn Hs.
  destruct (tail_starts _ _ Hn Hs) as [Hlow Hup].
  rewrite compose_eq. unfold re_match, password_re.
  rewrite rmatch_Cat, rmatch_Bol_start, rmatch_Cat.
  rewrite rmatch_Group, rmatch_Repeat.
  apply words_plus; [done | done | done | | |].
  - cbn [m_rest]. rewrite string_app_length. lia.
  - destruct words; [done | simpl; lia].
  - unfold close_group, span. cbn [m_pos m_rest m_groups].
    rewrite Nat.add_0_l, Nat.sub_0_r, substring_prefix.
    rewrite tail_match by done. by rewrite <- string_app_length.
Qed.

(** Round trip: composing a password from one or more capitalized words,
    an optional digit and an optional character that is neither a letter
    nor a digit, and decomposing it again, gives the parts back. *)
Theorem password_parts_round_trip (words : list string)
    (numeral special : string)
    (Hwords : words ≠ [])
    (Hcapitalized : Forall (λ w, capitalized w = true) words)
    (Hnumeral : numeral_part numeral = true)
    (Hspecial : special_part special = true) :
  password_parts (compose words numeral special)
  = Done (words, Some numeral, Some special).
Proof.
  unfold password_parts.
  rewrite re_match_compose by done.
  unfold group. simpl. by rewrite re_findall_words.
Qed.

Lemma password_parts_round_trip_witness :
  password_parts (compose ["Apple"; "Banana"] "7" "!")
  = Done (["Apple"; "Banana"], Some "7", Some "!").
Proof.
  apply (password_parts_round_trip ["Apple"; "Banana"] "7" "!").
  - discriminate.
  - repeat constructor.
  - reflexivity.
  - reflexivity.
Defined.

(** ** What a successful match has consumed *)

Lemma consumes_refl st : consumes "" st st.
Proof. unfold consumes. simpl. by rewrite Nat.add_0_r. Qed.

Lemma consumes_trans x y st st1 st2 :
  consumes x st st1 → consumes y st1 st2 → consumes (x +:+ y) st st2.
Proof.
  intros (Hr1 & Hp1 & Hg1) (Hr2 & Hp2 & Hg2). unfold consumes.
  rewrite string_app_assoc, <- Hr2, <- Hr1, string_app_length.
  split; [done|]. split; [lia | congruence].
Qed.

Lemma rmatch_Class_inv negated items st k m :
  rmatch (Class negated items) st k = Some m →
  ∃ x st1, one_of (class_matches negated items) x
           ∧ consumes x st st1 ∧ k st1 = Some m.
Proof.
  destruct st as [pos rest g]. rewrite rmatch_Class.
  destruct rest as [|c s]; [done|].
  destruct (class_matches negated items c) eqn:Hc; [|done].
  intros Hk. exists (String c ""), (MState (S pos) s g).
  split; [by exists c|]. split; [|done].
  unfold consumes. simpl. split; [done|]. split; [lia | done].
Qed.

(** A greedy repetition that succeeded went through some number of
    iterations of its body, within the bounds, and then on to its
    continuation. *)
Lemma repeat_loop_inv (body : matcher) (P : string → Prop) :
  (∀ st k m, body st k = Some m →
             ∃ x st1, P x ∧ consumes x st st1 ∧ k st1 = Some m) →
  ∀ fuel lo hi count st k m,
    repeat_loop body lo hi fuel count st k = Some m →
    ∃ n xs st',
      pieces P n xs
      ∧ consumes (join xs) st st'
      ∧ (lo ≤ count + n)%nat
      ∧ (∀ h, hi = Some h → (n = 0 ∨ count + n ≤ h)%nat)
      ∧ k st' = Some m.
Proof.
  intros Hbody fuel lo hi.
  assert (Hstop : ∀ count st (k : mstate → option mstate) m,
    (if (lo <=? count)%nat then k st else None) = Some m →
    ∃ n xs st',
      pieces P n xs ∧ consumes (join xs) st st' ∧ (lo ≤ count + n)%nat
      ∧ (∀ h, hi = Some h → (n = 0 ∨ count + n ≤ h)%nat)
      ∧ k st' = Some m).
  { intros count st k m H. destruct (lo <=? count)%nat eqn:Hlo; [|done].
    apply Nat.leb_le in Hlo. exists 0%nat, [], st.
    split; [constructor|]. split; [apply consumes_refl|].
    split; [lia|]. split; [by left | done]. }
  induction fuel as [|fuel IH]; intros count st k m H.
  { rewrite repeat_loop_0 in H. by apply Hstop. }
  rewrite repeat_loop_S in H.
  destruct (may_repeat count hi) eqn:Hmay; [|by apply Hstop].
  destruct (body st _) as [m'|] eqn:Hb; [|by apply Hstop].
  injection H as ->.
  apply Hbody in Hb. destruct Hb as (x & st1 & Hx & Hc & Hk).
  destruct (m_pos st <? m_pos st1)%nat; [|done].
  apply IH in Hk.
  destruct Hk as (n & xs & st' & Hxs & Hcs & Hlo & Hhi & Hk).
  exists (S n), (x :: xs), st'.
  split; [by constructor|]. split; [by eapply consumes_trans|].
  split; [lia|]. split; [|done].
  intros h ->. right. simpl in Hmay. apply Nat.ltb_lt in Hmay.
  destruct (Hhi h eq_refl); lia.
Qed.

Lemma string_app_nil_r (s : string) : s +:+ "" = s.
Proof. induction s as [|c s IH]; [done|]. by rewrite string_app_cons, IH. Qed.

Lemma span_consumes x st st1 : consumes x st st1 → span st st1 = x.
Proof.
  intros (Hr & Hp & _). unfold span. rewrite Hr, Hp.
  replace (m_pos st + String.length x - m_pos st)%nat
    with (String.length x) by lia.
  apply substring_prefix.
Qed.

Lemma pieces_lower n xs :
  pieces (one_of (class_matches false [Range "a" "z"])) n xs →
  all_lower (join xs) = true.
Proof.
  induction 1 as [|n x xs (c & -> & Hc) _ IH]; [done|].
  rewrite join_cons, string_app_cons, string_app_nil_l. simpl.
  rewrite class_lower in Hc. by rewrite Hc, IH.
Qed.

Lemma pieces_Forall (P : string → Prop) n xs :
  pieces P n xs → Forall P xs ∧ length xs = n.
Proof.
  induction 1 as [|n x xs Hx _ [IH1 IH2]]; [done|].
  split; [by constructor | simpl; lia].
Qed.

(** A match of "[A-Z][a-z]*" consumed a capitalized word. *)
Lemma word_re_inv st k m :
  rmatch word_re st k = Some m →
  ∃ w st1, capitalized w = true ∧ consumes w st st1 ∧ k st1 = Some m.
Proof.
  unfold word_re, upper, lower. rewrite rmatch_Cat. intros H.
  apply rmatch_Class_inv in H.
  destruct H as (x & st1 & (c & -> & Hc) & Hx & H).
  rewrite rmatch_Repeat in H.
  apply (repeat_loop_inv _ _ (rmatch_Class_inv false [Range "a" "z"])) in H.
  destruct H as (n & xs & st2 & Hxs & Hcs & _ & _ & Hk).
  exists (String c "" +:+ join xs), st2.
  split; [|split; [by eapply consumes_trans | done]].
  rewrite string_app_cons, string_app_nil_l. simpl.
  rewrite class_upper in Hc. by rewrite Hc, (pieces_lower n).
Qed.

(** A match of an optional single character of a class consumed that
    character or nothing. *)
Lemma optional_class_inv negated items st k m :
  rmatch (Repeat 0 (Some 1%nat) (Class negated items)) st k = Some m →
  ∃ x st1,
    (x = "" ∨ one_of (class_matches negated items) x)
    ∧ consumes x st st1 ∧ k st1 = Some m.
Proof.
  rewrite rmatch_Repeat. intros H.
  apply (repeat_loop_inv _ _ (rmatch_Class_inv negated items)) in H.
  destruct H as (n & xs & st1 & Hxs & Hcs & _ & Hhi & Hk).
  exists (join xs), st1. split; [|done].
  destruct Hxs as [|n x xs Hx Hxs]; [by left|]. right.
  destruct (Hhi 1%nat eq_refl) as [|Hn]; [done|].
  destruct Hxs; [|lia].
  by rewrite join_cons, string_app_nil_r.
Qed.

(** What the pattern of [password_parts] matches: a composed password, to
    its end or up to a final newline. *)
Lemma re_match_password_inv s m :
  re_match password_re s = Some m →
  ∃ words numeral special,
    words ≠ []
    ∧ Forall (λ w, capitalized w = true) words
    ∧ numeral_part numeral = true
    ∧ special_part special = true
    ∧ m_groups m = [(3%nat, special); (2%nat, numeral); (1%nat, join words)]
    ∧ (s = compose words numeral special
       ∨ s = compose words numeral special +:+ newline).
Proof.
  unfold re_match, password_re.
  rewrite rmatch_Cat, rmatch_Bol_start, rmatch_Cat, rmatch_Group.
  rewrite rmatch_Repeat. intros H.
  apply (repeat_loop_inv _ _ word_re_inv) in H.
  destruct H as (n & ws & st1 & Hws & Hc1 & Hn & _ & H).
  apply pieces_Forall in Hws. destruct Hws as [Hws Hlen].
  pose proof (span_consumes _ _ _ Hc1) as Hspan1.
  remember (close_group 1 _ st1) as st1' eqn:Hst1'.
  rewrite rmatch_Cat, rmatch_Group in H. unfold digit, non_alnum in H.
  apply optional_class_inv in H.
  destruct H as (x2 & st2 & Hx2 & Hc2 & H).
  pose proof (span_consumes _ _ _ Hc2) as Hspan2.
  remember (close_group 2 _ st2) as st2' eqn:Hst2'.
  rewrite rmatch_Cat, rmatch_Group in H.
  apply optional_class_inv in H.
  destruct H as (x3 & st3 & Hx3 & Hc3 & H).
  pose proof (span_consumes _ _ _ Hc3) as Hspan3.
  cbn [rmatch] in H. case_bool_decide as Hend; [|done].
  injection H as <-.
  exists ws, x2, x3.
  split; [destruct ws; [simpl in *; lia | done]|].
  split; [done|].
  split.
  { destruct Hx2 as [->|(c & -> & Hc)]; [done|].
    simpl. by rewrite class_digit in Hc. }
  split.
  { destruct Hx3 as [->|(c & -> & Hc)]; [done|].
    simpl. rewrite class_non_alnum in Hc. done. }
  destruct Hc1 as (Hr1 & Hp1 & Hg1), Hc2 as (Hr2 & Hp2 & Hg2),
    Hc3 as (Hr3 & Hp3 & Hg3).
  subst st1' st2'. simpl in *. split.
  - rewrite Hspan3, Hg3, Hspan2, Hg2, Hspan1, Hg1. done.
  - rewrite compose_eq, Hr1, Hr2, Hr3.
    destruct Hend as [-> | ->].
    + left. by rewrite string_app_nil_r.
    + right. by rewrite !string_app_assoc.
Qed.

(** The strings [password_parts] accepts: it returns parts only for a
    composed password or one followed by a newline, the parts being those
    it was composed of; on every other string it raises [ValueError]. *)
Theorem password_parts_accepts_only (password : string) :
  password_parts password = Raised ValueError
  ∨ ∃ words numeral special,
      words ≠ []
      ∧ Forall (λ w, capitalized w = true) words
      ∧ numeral_part numeral = true
      ∧ special_part special = true
      ∧ password_parts password = Done (words, Some numeral, Some special)
      ∧ (password = compose words numeral special
         ∨ password = compose words numeral special +:+ newline).
Proof.
  unfold password_parts.
  destruct (re_match password_re password) as [m|] eqn:Hm; [|by left].
  right. apply re_match_password_inv in Hm.
  destruct Hm as (ws & x2 & x3 & Hne & Hws & Hn & Hs & Hg & Hshape).
  exists ws, x2, x3. repeat (split; [done|]). split; [|done].
  unfold group. rewrite Hg. simpl. by rewrite re_findall_words.
Qed.

(** C8. A string that is not of the shape of a generated password, and is
    decomposed all the same instead of being refused with [ValueError]: a
    password followed by a newline.  The [$] of the pattern also matches
    just before a final newline. *)
Theorem password_parts_accepts_trailing_newline :
  password_parts trailing_newline
  = Done (["Apple"], Some "1", Some "!")
  ∧ ¬ ∃ words numeral special,
        words ≠ []
        ∧ Forall (λ w, capitalized w = true) words
        ∧ numeral_part numeral = true
        ∧ special_part special = true
        ∧ compose words numeral special = trailing_newline.
Proof.
  split; [by vm_compute|].
  intros (words & numeral & special & Hne & Hws & Hn & Hs & Heq).
  pose proof (re_match_compose words numeral special Hne Hws Hn Hs) as H.
  rewrite Heq in H.
  assert (Hm : re_match password_re trailing_newline
               = Some (MState 7 (String "010" "")
                         [(3%nat, "!"); (2%nat, "1"); (1%nat, "Apple")]))
    by (by vm_compute).
  rewrite Hm in H. by injection H.
Qed.

(** * Further properties *)

(** ** What the checks of [main] establish *)

Lemma islice_stop_Done n k : islice_stop n = Done k → 0 ≤ n ≤ sys_maxsize ∧ k = Z.to_nat n.
Proof.
  unfold islice_stop. destruct (_ && _) eqn:H; [|done].
  apply andb_true_iff in H. destruct H as [?%Z.leb_le ?%Z.leb_le].
  by intros [= <-].
Qed.

Lemma islice_stop_bad n : bad_stop n → islice_stop n = Raised ValueError.
Proof.
  unfold bad_stop, islice_stop. intros H.
  destruct (_ && _) eqn:Hn; [|done].
  apply andb_true_iff in Hn. destruct Hn as [?%Z.leb_le ?%Z.leb_le]. lia.
Qed.

Lemma islice_stop_cases n :
  (islice_stop n = Done (Z.to_nat n) ∧ 0 ≤ n ≤ sys_maxsize)
  ∨ (islice_stop n = Raised ValueError ∧ bad_stop n).
Proof.
  unfold islice_stop, bad_stop.
  destruct (_ && _) eqn:Hn.
  - apply andb_true_iff in Hn. destruct Hn as [?%Z.leb_le ?%Z.leb_le].
    left. split; [done | lia].
  - apply andb_false_iff in Hn. right. split; [done|].
    destruct Hn as [?%Z.leb_gt | ?%Z.leb_gt]; lia.
Qed.

Lemma configure_checked words_txt a p :
  configure words_txt a = Done (inr p) →
  min_word a ≤ max_word a
  ∧ (∃ lo hi,
       default_lengths (min_length a) (max_length a) = (Some lo, Some hi)
       ∧ gt_bound lo hi = false
       ∧ p_min_length p = Z.max 1 lo ∧ p_max_length p = hi
       ∧ gt_bound (possible_size (Z.max 1 (min_word a)) a) hi = false
       ∧ Z.max 1 lo ≤ possible_size (max_word a) a)
  ∧ 0 ≤ top_words a ≤ sys_maxsize
  ∧ p_word_set p = word_set_of words_txt a
  ∧ re_search invalid_special_re (p_special_set p) = None
  ∧ 0 ≤ sample_size a ≤ sys_maxsize.
Proof.
  unfold configure, word_set_of.
  destruct (min_word a >? max_word a) eqn:Hw; [done|].
  destruct (default_lengths _ _) as [[lo|] [hi|]]; try done.
  destruct (gt_bound lo hi) eqn:Hlohi; [done|].
  destruct (gt_bound (possible_size (Z.max 1 (min_word a)) a) hi) eqn:Hlong;
    [done|].
  destruct (possible_size (max_word a) a <? Z.max 1 lo) eqn:Hshort; [done|].
  unfold base_word_set.
  destruct (islice_stop_cases (top_words a)) as [[Ht Htop] | [Ht _]];
    rewrite Ht; cbn [mbind result_bind]; [|done].
  case_bool_decide as Hsp; [done|].
  destruct (log2 (Z.of_nat (length (constrain_word_length _ _ _))))
    as [x| |] eqn:Hsize; cbn [mbind result_bind]; [|done..].
  change (log2 26) with (Done (Rlog2 26)). cbn [mbind result_bind].
  destruct (islice_stop_cases (sample_size a)) as [[Hn Hs] | [Hn _]];
    rewrite Hn; cbn [mbind result_bind]; [|done].
  intros [= <-]. cbn.
  split; [lia|]. split.
  { exists lo, hi. repeat split; try done. lia. }
  split; [done|]. split; [done|]. split; [|done].
  destruct (re_search _ _) eqn:Hre; [|done].
  destruct Hsp. by eexists.
Qed.

(** ** Generated passwords and their parts *)

Lemma chars_one s x : x ∈ chars s → ∃ c, x = String c "".
Proof.
  induction s as [|c s IH]; simpl; [by intros ?%elem_of_nil|].
  intros [->|H]%elem_of_cons; [by exists c | by apply IH].
Qed.

Lemma chars_digits x : x ∈ chars "0123456789" → numeral_part x = true ∧ x ≠ "".
Proof.
  simpl. intros H.
  repeat (apply elem_of_cons in H; destruct H as [-> | H]; [done|]).
  by apply elem_of_nil in H.
Qed.

(** Where [re.search] finds no character of a class, no character of the
    string is in the class. *)
Lemma search_class_None negated items pos s x :
  search_from (Class negated items) pos s = None →
  x ∈ chars s →
  ∃ c, x = String c "" ∧ class_matches negated items c = false.
Proof.
  revert pos. induction s as [|c s IH]; intros pos; simpl.
  { by intros _ ?%elem_of_nil. }
  destruct (class_matches negated items c) eqn:Hc; [done|].
  intros Hs [->|Hx]%elem_of_cons; [by exists c | by eapply IH].
Qed.

Lemma valid_special_part special_chars x :
  re_search invalid_special_re special_chars = None →
  x ∈ chars special_chars →
  special_part x = true ∧ x ≠ "".
Proof.
  intros Hs Hx. destruct (search_class_None _ _ _ _ _ Hs Hx) as (c & -> & Hc).
  split; [|done]. simpl. apply negb_true_iff.
  unfold class_matches in Hc. simpl in Hc.
  unfold is_alnum, is_lower, is_upper, is_digit.
  change (code "0") with 48%nat. change (code "9") with 57%nat.
  repeat (apply orb_false_iff in Hc; destruct Hc as [? Hc]).
  by repeat (apply orb_false_iff; split).
Qed.

Section CandidateFacts.
Variable rng : nat → nat.
Variable fuel : nat.

(** A candidate is composed of the words of a stem, a numeral drawn from
    the digits if one is appended, and a character drawn from the special
    characters if there are any. *)
Lemma base_passwords_Done word_set word_count append_numeral special_chars
    pos password pos' :
  base_passwords rng fuel word_set word_count append_numeral special_chars pos
  = Done (password, pos') →
  ∃ words numeral special pos1,
    alpha_words rng fuel word_set word_count pos = Done (words, pos1)
    ∧ (if append_numeral then numeral ∈ chars "0123456789" else numeral = "")
    ∧ (if bool_decide (special_chars ≠ "")
       then special ∈ chars special_chars else special = "")
    ∧ password = compose words numeral special.
Proof.
  unfold base_passwords, gen_alpha_passwords. intros H.
  apply gen_bind_Done in H. destruct H as (stem & pos1 & Hstem & H).
  apply gen_bind_Done in Hstem. destruct Hstem as (words & pos0 & Hw & Hstem).
  apply gen_ret_Done in Hstem. destruct Hstem as [<- <-].
  apply gen_bind_Done in H. destruct H as (numeral & pos2 & Hn & H).
  apply gen_bind_Done in H. destruct H as (special & pos3 & Hs & H).
  apply gen_ret_Done in H. destruct H as [<- <-].
  assert (Hnum : ∃ n, (if append_numeral then n ∈ chars "0123456789"
                       else n = "")
                      ∧ join numeral = n).
  { destruct append_numeral.
    - apply gen_bind_Done in Hn. destruct Hn as (d & ? & Hd & Hn).
      apply gen_ret_Done in Hn. destruct Hn as [<- _].
      apply random_choice_elem in Hd. exists d. split; [done|].
      destruct (chars_one _ _ Hd) as (c & ->). done.
    - apply gen_ret_Done in Hn. destruct Hn as [<- _]. by exists "". }
  assert (Hsp : ∃ c, (if bool_decide (special_chars ≠ "")
                      then c ∈ chars special_chars else c = "")
                     ∧ join special = c).
  { destruct (bool_decide (special_chars ≠ "")).
    - apply gen_bind_Done in Hs. destruct Hs as (c & ? & Hc & Hs).
      apply gen_ret_Done in Hs. destruct Hs as [<- _].
      apply random_choice_elem in Hc. exists c. split; [done|].
      destruct (chars_one _ _ Hc) as (c' & ->). done.
    - apply gen_ret_Done in Hs. destruct Hs as [<- _]. by exists "". }
  destruct Hnum as (n & Hn' & Hjn), Hsp as (c & Hc' & Hjc).
  exists words, n, c, pos0. split; [done|]. split; [done|]. split; [done|].
  rewrite compose_eq, <- Hjn, <- Hjc. rewrite join_cons. f_equal.
  clear. induction numeral as [|x xs IH]; [done|].
  rewrite <- app_comm_cons, !join_cons, string_app_assoc. by rewrite IH.
Qed.

(** The shape of a candidate made from capitalized words and a special
    set that passed the check of line 294. *)
Lemma base_passwords_shape word_set word_count append_numeral special_chars
    pos password pos' :
  Forall (λ w, capitalized w = true) word_set →
  1 ≤ word_count →
  re_search invalid_special_re special_chars = None →
  base_passwords rng fuel word_set word_count append_numeral special_chars pos
  = Done (password, pos') →
  ∃ words numeral special,
    password = compose words numeral special
    ∧ (words ≠ [] ∧ Forall (λ w, capitalized w = true) words
       ∧ numeral_part numeral = true ∧ special_part special = true)
    ∧ Z.of_nat (length words) = word_count
    ∧ NoDup words
    ∧ (∀ w, w ∈ words → w ∈ word_set)
    ∧ (if append_numeral then numeral ∈ chars "0123456789" else numeral = "")
    ∧ (if bool_decide (special_chars ≠ "")
       then special ∈ chars special_chars else special = "").
Proof.
  intros Hwords Hcount Hspecial Hgen.
  apply base_passwords_Done in Hgen.
  destruct Hgen as (words & numeral & special & pos1 & Hw & Hn & Hs & ->).
  apply alpha_words_Done in Hw. destruct Hw as (Hlen & Hnd & Hsub & _ & _).
  exists words, numeral, special.
  split; [done|]. split; [|done].
  split; [destruct words; [simpl in Hlen; lia | done]|].
  split.
  { apply Forall_forall. intros w Hin.
    by apply (proj1 (Forall_forall _ _) Hwords), Hsub. }
  split.
  - destruct append_numeral; [by apply chars_digits | by subst].
  - destruct (bool_decide (special_chars ≠ ""));
      [by eapply valid_special_part | by subst].
Qed.
End CandidateFacts.

(** A password generated by [base_passwords] from capitalized words,
    with at least one word and special characters that are no letters,
    digits or whitespace, is decomposed by [password_parts] into the words
    of its stem, its numeral and its special character. *)
Theorem generated_password_parts (rng : nat → nat) (fuel : nat)
    (word_set : list string) (word_count : Z)
    (append_numeral : bool) (special_chars : string) (pos pos' : nat)
    (password : string)
    (Hwords : Forall (λ w, capitalized w = true) word_set)
    (Hcount : 1 ≤ word_count)
    (Hspecial : re_search invalid_special_re special_chars = None)
    (Hgen : base_passwords rng fuel word_set word_count append_numeral
              special_chars pos = Done (password, pos')) :
  ∃ words numeral special,
    password_parts password = Done (words, Some numeral, Some special)
    ∧ password = compose words numeral special
    ∧ Z.of_nat (length words) = word_count
    ∧ NoDup words
    ∧ (∀ w, w ∈ words → w ∈ word_set)
    ∧ (if append_numeral then numeral ∈ chars "0123456789" else numeral = "")
    ∧ (if bool_decide (special_chars ≠ "")
       then special ∈ chars special_chars else special = "").
Proof.
  destruct (base_passwords_shape _ _ _ _ _ _ _ _ _ Hwords Hcount Hspecial Hgen)
    as (words & numeral & special & -> & (Hne & Hcap & Hn & Hs) & Hrest).
  exists words, numeral, special. split; [|done].
  unfold password_parts. rewrite re_match_compose by done.
  unfold group. simpl. by rewrite re_findall_words.
Qed.

Lemma generated_password_parts_witness :
  ∃ words numeral special,
    password_parts "AppleBanana2?" = Done (words, Some numeral, Some special)
    ∧ "AppleBanana2?" = compose words numeral special
    ∧ Z.of_nat (length words) = 2
    ∧ NoDup words
    ∧ (∀ w, w ∈ words → w ∈ ["Apple"; "Banana"; "Cherry"])
    ∧ numeral ∈ chars "0123456789"
    ∧ special ∈ chars "!?".
Proof.
  apply (generated_password_parts (λ k, k) 5 ["Apple"; "Banana"; "Cherry"] 2
           true "!?" 0%nat 4%nat "AppleBanana2?").
  - repeat constructor.
  - lia.
  - reflexivity.
  - vm_compute. reflexivity.
Defined.

(** ** The word set of [main] *)

Lemma word_set_of_elem words_txt a w :
  w ∈ word_set_of words_txt a →
  w ∈ words_txt ∧ Z.max 1 (min_word a) ≤ len w ≤ max_word a.
Proof.
  unfold word_set_of, constrain_word_length. intros H.
  apply list_elem_of_filter in H. destruct H as [Hin Hw].
  split; [by eapply subseteq_take|].
  unfold in_length in Hin. simpl in Hin. lia.
Qed.

(** A printed password is a candidate that the generator made from the
    plan of the checks and that lies within the length bounds. *)
Lemma main_Printed_candidate rng fuel words_txt a pos password entropy pos' :
  main rng fuel words_txt a pos = Done (Printed password entropy, pos') →
  ∃ p pos1 pos2,
    configure words_txt a = Done (inr p)
    ∧ base_passwords rng fuel (p_word_set p) (word_count a)
        (p_append_numeral p) (p_special_set p) pos1 = Done (password, pos2)
    ∧ in_length (p_min_length p) (p_max_length p) password = true.
Proof.
  intros H.
  destruct (configure words_txt a) as [[msg|p]| |] eqn:Hcfg;
    try (unfold main, lift, mbind, gen_bind in H; by rewrite Hcfg in H).
  rewrite (main_configured _ _ _ _ _ _ Hcfg) in H.
  apply generate_Printed in H. destruct H as (remaining & pos1 & Hnext & _).
  apply next_Some in Hnext.
  destruct Hnext as (ps & pos0 & _ & _ & _ & Hp & Hacc). eauto 10.
Qed.

(** With a word list of capitalized words and a word count of at least
    one, every password [main] prints is decomposed by [password_parts]:
    into [word_count] different words of the list whose lengths are within
    the word-length bounds, a digit unless [no_append_numeral] is set, and
    a character of [special_set] if [append_char] is set. *)
Theorem main_password_parts (rng : nat → nat) (fuel : nat)
    (words_txt : list string) (a : args) (pos pos' : nat)
    (password : string) (entropy : option R)
    (Hwords : Forall (λ w, capitalized w = true) words_txt)
    (Hcount : 1 ≤ word_count a)
    (Hmain : main rng fuel words_txt a pos
             = Done (Printed password entropy, pos')) :
  ∃ words numeral special,
    password_parts password = Done (words, Some numeral, Some special)
    ∧ Z.of_nat (length words) = word_count a
    ∧ NoDup words
    ∧ (∀ w, w ∈ words →
         w ∈ words_txt ∧ Z.max 1 (min_word a) ≤ len w ≤ max_word a)
    ∧ (if no_append_numeral a then numeral = ""
       else numeral ∈ chars "0123456789")
    ∧ (if append_char a && bool_decide (special_set a ≠ "")
       then special ∈ chars (special_set a) else special = "").
Proof.
  apply main_Printed_candidate in Hmain.
  destruct Hmain as (p & pos1 & pos2 & Hcfg & Hgen & _).
  pose proof (configure_inr _ _ _ Hcfg) as (_ & _ & _ & _ & Hnum & Hsp).
  pose proof (configure_checked _ _ _ Hcfg) as (_ & _ & _ & Hset & Hvalid & _).
  assert (Hcap : Forall (λ w, capitalized w = true) (p_word_set p)).
  { apply Forall_forall. intros w Hw. rewrite Hset in Hw.
    apply word_set_of_elem in Hw. destruct Hw as [Hw _].
    by apply (proj1 (Forall_forall _ _) Hwords). }
  destruct (base_passwords_shape _ _ _ _ _ _ _ _ _ Hcap Hcount Hvalid Hgen)
    as (words & numeral & special & -> & (Hne & Hcw & Hn & Hs)
        & Hlen & Hnd & Hsub & Hnumeral & Hspecial).
  exists words, numeral, special.
  split.
  { unfold password_parts. rewrite re_match_compose by done.
    unfold group. simpl. by rewrite re_findall_words. }
  split; [done|]. split; [done|]. split.
  { intros w Hw. apply word_set_of_elem. rewrite <- Hset. by apply Hsub. }
  rewrite Hnum in Hnumeral. rewrite Hsp in Hspecial. split.
  - by destruct (no_append_numeral a).
  - destruct (append_char a); simpl; [done|].
    by rewrite bool_decide_false in Hspecial by (by intros ?).
Qed.

Lemma main_password_parts_witness :
  ∃ words numeral special,
    password_parts "AppleBanana2?" = Done (words, Some numeral, Some special)
    ∧ Z.of_nat (length words) = word_count sample_args
    ∧ NoDup words
    ∧ (∀ w, w ∈ words →
         w ∈ sample_words
         ∧ Z.max 1 (min_word sample_args) ≤ len w ≤ max_word sample_args)
    ∧ numeral ∈ chars "0123456789"
    ∧ special ∈ chars "!?".
Proof.
  apply (main_password_parts (λ k, k) 10 sample_words sample_args 0%nat 4%nat
           "AppleBanana2?" None).
  - repeat constructor.
  - by vm_compute.
  - vm_compute. reflexivity.
Defined.

(** ** Lengths of candidates *)

Lemma len_app (s t : string) : len (s +:+ t) = len s + len t.
Proof. unfold len. rewrite string_app_length. lia. Qed.

Lemma len_join_bounds (lo hi : Z) (words : list string) :
  (∀ w, w ∈ words → lo ≤ len w ≤ hi) →
  lo * Z.of_nat (length words) ≤ len (join words)
  ≤ hi * Z.of_nat (length words).
Proof.
  induction words as [|w ws IH]; intros H.
  { change (len (join [])) with 0. simpl. lia. }
  rewrite join_cons, len_app. cbn [length].
  specialize (H w (list_elem_of_here _ _)) as Hw.
  specialize (IH (λ x Hx, H x (list_elem_of_further _ _ _ Hx))). lia.
Qed.

Lemma len_compose words numeral special :
  len (compose words numeral special)
  = len (join words) + len numeral + len special.
Proof. rewrite compose_eq, !len_app. lia. Qed.

Lemma len_chars s x : x ∈ chars s → len x = 1.
Proof. intros H. by destruct (chars_one _ _ H) as (c & ->). Qed.

(** A candidate that [base_passwords] generates from the word set of
    [main] is at least as long as the minimum possible size that [main]
    computes and at most as long as the maximum possible size, provided
    the special set is not empty when a character is to be appended.  So
    when [main] reports impossible constraints, no candidate would have
    passed the length filter. *)
Theorem candidate_length_bounds (rng : nat → nat) (fuel : nat)
    (words_txt : list string) (a : args) (pos pos' : nat) (password : string)
    (Hspecial : append_char a = true → special_set a ≠ "")
    (Hgen : base_passwords rng fuel (word_set_of words_txt a) (word_count a)
              (negb (no_append_numeral a))
              (if append_char a then special_set a else "") pos
            = Done (password, pos')) :
  possible_size (Z.max 1 (min_word a)) a ≤ len password
  ≤ possible_size (max_word a) a
  ∧ ∀ lo hi,
      gt_bound (possible_size (Z.max 1 (min_word a)) a) hi = true
      ∨ possible_size (max_word a) a < lo →
      in_length lo hi password = false.
Proof.
  apply base_passwords_Done in Hgen.
  destruct Hgen as (words & numeral & special & pos1 & Hw & Hn & Hs & ->).
  apply alpha_words_Done in Hw. destruct Hw as (Hlen & _ & Hsub & _ & _).
  assert (Hstem : Z.max 1 (min_word a) * word_count a ≤ len (join words)
                  ≤ max_word a * word_count a).
  { rewrite <- Hlen. apply len_join_bounds.
    intros w Hin. by apply (word_set_of_elem words_txt), Hsub. }
  assert (Hnum : len numeral = if no_append_numeral a then 0 else 1).
  { destruct (no_append_numeral a); cbn [negb] in Hn;
      [by subst | by eapply len_chars]. }
  assert (Hsp : len special = if append_char a then 1 else 0).
  { destruct (append_char a).
    - rewrite bool_decide_true in Hs by auto. by eapply len_chars.
    - rewrite bool_decide_false in Hs by (by intros ?). by subst. }
  assert (Hbounds : possible_size (Z.max 1 (min_word a)) a
                    ≤ len (compose words numeral special)
                    ≤ possible_size (max_word a) a).
  { rewrite len_compose, Hnum, Hsp. unfold possible_size. lia. }
  split; [done|].
  intros lo hi H. unfold in_length.
  destruct H as [H|H].
  - apply andb_false_iff. right. destruct hi as [h|]; [|done]. simpl in *. lia.
  - apply andb_false_iff. left. lia.
Qed.

Lemma candidate_length_bounds_witness :
  possible_size (Z.max 1 (min_word sample_args)) sample_args
  ≤ len "AppleBanana2?" ≤ possible_size (max_word sample_args) sample_args
  ∧ ∀ lo hi,
      gt_bound (possible_size (Z.max 1 (min_word sample_args)) sample_args) hi
      = true
      ∨ possible_size (max_word sample_args) sample_args < lo →
      in_length lo hi "AppleBanana2?" = false.
Proof.
  apply (candidate_length_bounds (λ k, k) 10 sample_words sample_args
           0%nat 4%nat "AppleBanana2?").
  - discriminate.
  - vm_compute. reflexivity.
Defined.

(** What the checks of [main] establish before the first password is
    generated: the word set holds the words among the first [top_words]
    of the list whose lengths are within the word-length bounds, in their
    order, and is not empty; the minimum length is at least one and not
    above the maximum length; every character of the special set is
    neither a letter nor a digit. *)
Theorem checks_establish (words_txt : list string) (a : args) (p : plan)
    (Hchecked : configure words_txt a = Done (inr p)) :
  p_word_set p = word_set_of words_txt a
  ∧ p_word_set p ≠ []
  ∧ p_word_set p `sublist_of` words_txt
  ∧ (∀ w, w ∈ p_word_set p →
       Z.max 1 (min_word a) ≤ len w ≤ max_word a)
  ∧ 1 ≤ p_min_length p
  ∧ le_bound (p_min_length p) (p_max_length p) = true
  ∧ (∀ x, x ∈ chars (p_special_set p) → special_part x = true).
Proof.
  pose proof (configure_inr _ _ _ Hchecked) as (_ & Hne & _).
  pose proof (configure_checked _ _ _ Hchecked)
    as (Hw & (lo & hi & _ & Hlohi & Hmin & Hmax & Hlong & Hshort)
        & _ & Hset & Hvalid & _).
  split; [done|]. split; [done|]. split.
  { rewrite Hset. unfold word_set_of, constrain_word_length.
    etrans; [apply sublist_filter | apply sublist_take]. }
  split.
  { intros w Hin. rewrite Hset in Hin.
    by destruct (word_set_of_elem _ _ _ Hin). }
  split; [lia|]. split.
  - rewrite Hmin, Hmax. destruct hi as [h|]; [|done]. simpl in *.
    destruct (p_word_set p) as [|w ws] eqn:Hws; [done|].
    assert (Hin : w ∈ word_set_of words_txt a)
      by (rewrite <- Hset; apply list_elem_of_here).
    apply word_set_of_elem in Hin. destruct Hin as [_ Hlen].
    unfold possible_size in *.
    destruct (no_append_numeral a), (append_char a); nia.
  - intros x Hx. by eapply valid_special_part.
Qed.

Lemma checks_establish_witness :
  ∃ p, configure sample_words sample_args = Done (inr p)
       ∧ p_word_set p ≠ []
       ∧ 1 ≤ p_min_length p
       ∧ le_bound (p_min_length p) (p_max_length p) = true.
Proof.
  eexists. split; [vm_compute; reflexivity|].
  pose proof (checks_establish sample_words sample_args _
                ltac:(vm_compute; reflexivity)) as (_ & H1 & _ & _ & H2 & H3 & _).
  done.
Defined.

(** ** Exceptions *)

Lemma gen_bind_Raised {A B} (m : gen A) (f : A → gen B) pos e :
  (m ≫= f) pos = Raised e ↔
  m pos = Raised e ∨ ∃ a pos1, m pos = Done (a, pos1) ∧ f a pos1 = Raised e.
Proof.
  unfold mbind, gen_bind. destruct (m pos) as [[a pos1]|e'|]; split.
  - eauto.
  - by intros [? | (? & ? & [= <- <-] & ?)].
  - intros [= ->]. by left.
  - by intros [[= ->] | (? & ? & ? & ?)].
  - done.
  - by intros [? | (? & ? & ? & ?)].
Qed.

Lemma gen_bind_raise {A B} (m : gen A) (f : A → gen B) pos e :
  m pos = Raised e → (m ≫= f) pos = Raised e.
Proof. unfold mbind, gen_bind. by intros ->. Qed.

Lemma lift_Raised {A} (r : result A) pos e : lift r pos = Raised e ↔ r = Raised e.
Proof. unfold lift. destruct r; simpl; split; congruence. Qed.

Lemma chars_nonempty s : s ≠ "" → chars s ≠ [].
Proof. by destruct s. Qed.

Lemma estimate_entropy_Done (word_set_size word_count : Z)
    (append_numeral : bool) (special_chars : string)
    (sample_size success_size : Z) :
  word_count ≤ word_set_size → 1 ≤ sample_size → 1 ≤ success_size →
  estimate_entropy word_set_size word_count append_numeral special_chars
    sample_size success_size
  = Done (spec_entropy word_set_size word_count append_numeral special_chars
            sample_size success_size).
Proof.
  intros Hw Hs Hc. unfold estimate_entropy, spec_entropy.
  rewrite wordset_entropy_spec by done.
  unfold numeral_entropy, special_char_entropy, sampled_entropy.
  unfold spec_numeral_entropy, spec_special_char_entropy.
  assert (Hten : log2 10 = Done (Rlog2 10)) by done.
  assert (Hlen : special_chars ≠ "" →
                 log2 (len special_chars)
                 = Done (Rlog2 (IZR (len special_chars)))).
  { intros Hne. apply log2_Done. unfold len.
    destruct special_chars; [done | simpl; lia]. }
  rewrite !(log2_Done sample_size), !(log2_Done success_size) by lia.
  destruct append_numeral; case_bool_decide;
    rewrite ?Hten, ?Hlen by done; done.
Qed.

Section RaiseFacts.
Variable rng : nat → nat.
Variable fuel : nat.

Lemma random_choice_Raised {A} (things : list A) pos e :
  random_choice rng things pos = Raised e → things = [].
Proof.
  intros H. destruct things as [|x xs]; [done|].
  destruct (random_choice_nonempty rng (x :: xs) pos ltac:(done)) as [y Hy].
  congruence.
Qed.

Lemma islice_non_repeating_not_Raised things n seen pos e :
  things ≠ [] → islice_non_repeating rng fuel things n seen pos ≠ Raised e.
Proof.
  intros Hne. revert seen pos. induction n as [|n IH]; intros seen pos; [done|].
  simpl. intros H. apply gen_bind_Raised in H.
  destruct H as [H | ([w seen'] & pos1 & _ & H)].
  { by apply non_repeating_not_Raised in H. }
  apply gen_bind_Raised in H. destruct H as [H | (? & ? & _ & H)]; [|done].
  by apply IH in H.
Qed.

(** A candidate can only fail to be generated because of its word count,
    with [ValueError]. *)
Lemma base_passwords_Raised word_set word_count append_numeral special_chars
    pos e :
  word_set ≠ [] →
  base_passwords rng fuel word_set word_count append_numeral special_chars pos
  = Raised e →
  e = ValueError ∧ bad_stop word_count.
Proof.
  intros Hne H. unfold base_passwords in H.
  apply gen_bind_Raised in H. destruct H as [H | (stem & pos1 & _ & H)].
  - unfold gen_alpha_passwords in H.
    apply gen_bind_Raised in H. destruct H as [H | (? & ? & _ & H)]; [|done].
    unfold alpha_words in H.
    apply gen_bind_Raised in H. destruct H as [H | (? & ? & _ & H)].
    + apply lift_Raised in H.
      destruct (islice_stop_cases word_count) as [[Hs _] | [Hs Hbad]];
        rewrite Hs in H; [done|]. by injection H as <-.
    + by apply islice_non_repeating_not_Raised in H.
  - apply gen_bind_Raised in H. destruct H as [H | (? & ? & _ & H)].
    + destruct append_numeral; [|done].
      apply gen_bind_Raised in H. destruct H as [H | (? & ? & _ & H)]; [|done].
      by apply random_choice_Raised in H.
    + apply gen_bind_Raised in H. destruct H as [H | (? & ? & _ & H)]; [|done].
      case_bool_decide as Hs; [|done].
      apply gen_bind_Raised in H. destruct H as [H | (? & ? & _ & H)]; [|done].
      apply random_choice_Raised in H. by apply chars_nonempty in Hs.
Qed.

Lemma base_passwords_bad_stop word_set word_count append_numeral
    special_chars pos :
  bad_stop word_count →
  base_passwords rng fuel word_set word_count append_numeral special_chars pos
  = Raised ValueError.
Proof.
  intros Hbad. unfold base_passwords, gen_alpha_passwords, alpha_words.
  do 3 apply gen_bind_raise. apply lift_Raised. by apply islice_stop_bad.
Qed.

Lemma next_Raised word_set word_count append_numeral special_chars
    min_len max_len n pos e :
  word_set ≠ [] →
  constrain_word_length_next rng fuel word_set word_count append_numeral
    special_chars min_len max_len n pos = Raised e →
  e = ValueError ∧ bad_stop word_count.
Proof.
  intros Hne. revert pos. induction n as [|n IH]; intros pos; [done|].
  simpl. intros H. apply gen_bind_Raised in H.
  destruct H as [H | (q & pos1 & _ & H)].
  - by eapply base_passwords_Raised.
  - destruct (in_length min_len max_len q); [done | by eapply IH].
Qed.

Lemma count_iterator_Raised word_set word_count append_numeral special_chars
    min_len max_len n pos e :
  word_set ≠ [] →
  count_iterator rng fuel word_set word_count append_numeral
    special_chars min_len max_len n pos = Raised e →
  e = ValueError ∧ bad_stop word_count.
Proof.
  intros Hne. revert pos. induction n as [|n IH]; intros pos; [done|].
  simpl. intros H. apply gen_bind_Raised in H.
  destruct H as [H | (q & pos1 & _ & H)].
  - by eapply base_passwords_Raised.
  - apply gen_bind_Raised in H. destruct H as [H | (? & ? & _ & H)]; [|done].
    by eapply IH.
Qed.

(** A generated candidate has no more words than the word set. *)
Lemma base_passwords_word_count word_set word_count append_numeral
    special_chars pos password pos' :
  base_passwords rng fuel word_set word_count append_numeral special_chars pos
  = Done (password, pos') →
  0 ≤ word_count ≤ Z.of_nat (length word_set).
Proof.
  intros H. apply base_passwords_Done in H.
  destruct H as (words & _ & _ & pos1 & Hw & _).
  apply alpha_words_Done in Hw. destruct Hw as (Hlen & Hnd & Hsub & _).
  pose proof (submseteq_length _ _ (NoDup_submseteq _ _ Hnd Hsub)). lia.
Qed.

(** Once a first password was found, the rest of [main] succeeds if the
    rest of the sample can be generated. *)
Lemma generate_entropy_Done a p pos password remaining pos1 others pos' :
  p_word_set p ≠ [] →
  p_sample p = Z.to_nat (sample_size a) →
  entropy_estimate a || verbose a = true →
  constrain_word_length_next rng fuel (p_word_set p) (word_count a)
    (p_append_numeral p) (p_special_set p) (p_min_length p) (p_max_length p)
    (p_sample p) pos = Done (Some (password, remaining), pos1) →
  count_iterator rng fuel (p_word_set p) (word_count a) (p_append_numeral p)
    (p_special_set p) (p_min_length p) (p_max_length p) remaining pos1
  = Done (others, pos') →
  0 ≤ others
  ∧ generate rng fuel a p pos
    = Done (Printed password
              (Some (spec_entropy (Z.of_nat (length (p_word_set p)))
                       (word_count a) (p_append_numeral p) (p_special_set p)
                       (sample_size a) (others + 1))),
            pos').
Proof.
  intros Hne Hsample Hflag Hnext Hcount.
  assert (H0 : 0 ≤ others).
  { apply count_iterator_Done in Hcount. destruct Hcount as (? & _ & ->). lia. }
  split; [done|].
  unfold generate. rewrite (gen_bind_step _ _ _ _ _ Hnext), Hflag.
  rewrite (gen_bind_step _ _ _ _ _ Hcount).
  apply next_Some in Hnext.
  destruct Hnext as (ps & pos0 & Hn & _ & _ & Hp & _).
  apply base_passwords_word_count in Hp.
  rewrite estimate_entropy_Done by lia. done.
Qed.

Lemma generate_Raised a p pos e :
  p_word_set p ≠ [] →
  p_sample p = Z.to_nat (sample_size a) →
  generate rng fuel a p pos = Raised e →
  e = ValueError ∧ bad_stop (word_count a) ∧ 1 ≤ sample_size a.
Proof.
  intros Hne Hsample H.
  assert (Hpos : ∀ n, p_sample p = S n → 1 ≤ sample_size a) by lia.
  unfold generate in H. apply gen_bind_Raised in H.
  destruct H as [H | (first & pos1 & Hfirst & H)].
  - destruct (p_sample p) as [|n] eqn:Hn; [done|].
    apply next_Raised in H; [|done]. destruct H. eauto.
  - destruct first as [[password remaining]|]; [|done].
    destruct (entropy_estimate a || verbose a) eqn:Hflag; [|done].
    apply gen_bind_Raised in H. destruct H as [H | (others & pos2 & Hc & H)].
    + apply count_iterator_Raised in H; [|done]. destruct H.
      apply next_Some in Hfirst. destruct Hfirst as (? & ? & ? & _). eauto.
    + destruct (generate_entropy_Done a p pos password remaining pos1 others
                  pos2 Hne Hsample Hflag Hfirst Hc) as [_ Hg].
      exfalso. unfold generate in Hg.
      rewrite (gen_bind_step _ _ _ _ _ Hfirst), Hflag in Hg.
      rewrite (gen_bind_step _ _ _ _ _ Hc) in Hg. congruence.
Qed.
End RaiseFacts.

(** ** Exceptions of [main] *)

Lemma default_lengths_None min_length max_length :
  (∃ lo hi, default_lengths min_length max_length = (Some lo, Some hi))
  ∨ (zero_and_none min_length max_length
     ∧ ∀ lo hi, default_lengths min_length max_length ≠ (Some lo, Some hi)).
Proof.
  unfold default_lengths, truthy, zero_and_none.
  destruct min_length as [lo|], max_length as [hi|]; simpl.
  - left. destruct (hi =? 0), (lo =? 0); simpl; eauto.
  - destruct (lo =? 0) eqn:Hlo; simpl; [|left; eauto].
    apply Z.eqb_eq in Hlo as ->. right. split; [by left | done].
  - destruct (hi =? 0) eqn:Hhi; simpl; [|left; eauto].
    apply Z.eqb_eq in Hhi as ->. right. split; [by right | done].
  - left. eauto.
Qed.

Lemma configure_Raised words_txt a e :
  configure words_txt a = Raised e →
  (e = TypeError ∧ min_word a ≤ max_word a
   ∧ zero_and_none (min_length a) (max_length a))
  ∨ e = ValueError.
Proof.
  unfold configure.
  destruct (min_word a >? max_word a) eqn:Hw; [done|].
  destruct (default_lengths_None (min_length a) (max_length a))
    as [(lo & hi & ->) | [Hz Hnone]].
  - destruct (gt_bound lo hi); [done|].
    destruct (gt_bound (possible_size (Z.max 1 (min_word a)) a) hi); [done|].
    destruct (possible_size (max_word a) a <? Z.max 1 lo); [done|].
    unfold base_word_set.
    destruct (islice_stop_cases (top_words a)) as [[Ht _] | [Ht _]];
      rewrite Ht; cbn [mbind result_bind]; [|intros [= <-]; by right].
    case_bool_decide; [done|].
    destruct (log2 (Z.of_nat (length (constrain_word_length _ _ _))))
      as [x| |] eqn:Hsize; cbn [mbind result_bind].
    + change (log2 26) with (Done (Rlog2 26)). cbn [mbind result_bind].
      destruct (islice_stop_cases (sample_size a)) as [[Hn _] | [Hn _]];
        rewrite Hn; cbn [mbind result_bind]; [done|].
      intros [= <-]. by right.
    + unfold log2 in Hsize. destruct (0 <? _); [done|].
      injection Hsize as <-. intros [= <-]. by right.
    + unfold log2 in Hsize. by destruct (0 <? _).
  - destruct (default_lengths _ _) as [[lo|] [hi|]] eqn:Hd;
      [by destruct (Hnone lo hi) | | |];
      intros [= <-]; left; split; try done; split; try done; lia.
Qed.

Lemma configure_TypeError words_txt a :
  min_word a ≤ max_word a →
  zero_and_none (min_length a) (max_length a) →
  configure words_txt a = Raised TypeError.
Proof.
  intros Hw Hz. unfold configure.
  destruct (min_word a >? max_word a) eqn:Hgt; [lia|].
  by destruct Hz as [[-> ->] | [-> ->]].
Qed.

Lemma main_Raised rng fuel words_txt a pos e :
  main rng fuel words_txt a pos = Raised e ↔
  configure words_txt a = Raised e
  ∨ ∃ p, configure words_txt a = Done (inr p)
         ∧ generate rng fuel a p pos = Raised e.
Proof.
  unfold main, lift, mbind at 1, gen_bind.
  destruct (configure words_txt a) as [[msg|p]|e'|]; simpl; split.
  - done.
  - by intros [? | (? & ? & ?)].
  - intros H. right. eauto.
  - by intros [? | (? & [= <-] & ?)].
  - intros [= ->]. by left.
  - by intros [[= ->] | (? & ? & ?)].
  - done.
  - by intros [? | (? & ? & ?)].
Qed.

(** [main] raises [TypeError] exactly when the word-length bounds are
    in order and one length bound is given as [0] while the other is left
    out: the comparison of line 252 then meets [None].  It never raises
    [IndexError]: no choice is made from an empty word set. *)
Theorem main_TypeError (rng : nat → nat) (fuel : nat)
    (words_txt : list string) (a : args) (pos : nat) :
  (main rng fuel words_txt a pos = Raised TypeError ↔
   min_word a ≤ max_word a ∧ zero_and_none (min_length a) (max_length a))
  ∧ main rng fuel words_txt a pos ≠ Raised IndexError.
Proof.
  assert (Hgen : ∀ p e, configure words_txt a = Done (inr p) →
                        generate rng fuel a p pos = Raised e →
                        e = ValueError).
  { intros p e Hcfg Hg.
    pose proof (configure_inr _ _ _ Hcfg) as (_ & Hne & _ & Hn & _).
    by destruct (generate_Raised rng fuel a p pos e Hne Hn Hg). }
  split; [split|].
  - intros H. apply main_Raised in H. destruct H as [H | (p & Hcfg & H)].
    + apply configure_Raised in H. by destruct H as [(_ & ? & ?) | ?].
    + by apply Hgen in H.
  - intros [Hw Hz]. apply main_Raised. left. by apply configure_TypeError.
  - intros H. apply main_Raised in H. destruct H as [H | (p & Hcfg & H)].
    + apply configure_Raised in H. by destruct H as [(? & _) | ?].
    + by apply Hgen in H.
Qed.

(** Once the checks passed, [main] raises only for a word count that
    [itertools.islice] refuses, negative or above [sys.maxsize], and then,
    if at least one candidate is asked for, it raises [ValueError]. *)
Theorem main_raises_after_checks (rng : nat → nat) (fuel : nat)
    (words_txt : list string) (a : args) (p : plan) (pos : nat) (e : exn)
    (Hchecked : configure words_txt a = Done (inr p)) :
  main rng fuel words_txt a pos = Raised e ↔
  e = ValueError ∧ bad_stop (word_count a) ∧ 1 ≤ sample_size a.
Proof.
  pose proof (configure_inr _ _ _ Hchecked) as (_ & Hne & _ & Hn & _).
  rewrite (main_configured _ _ _ _ _ _ Hchecked). split.
  - by apply generate_Raised.
  - intros (-> & Hbad & Hs). unfold generate.
    apply gen_bind_raise.
    destruct (p_sample p) as [|n] eqn:Hp; [lia|]. simpl.
    apply gen_bind_raise. by apply base_passwords_bad_stop.
Qed.

Lemma main_raises_after_checks_witness :
  ∃ p, configure ["A"; "Be"] negative_count_args = Done (inr p)
       ∧ main (λ k, k) 5 ["A"; "Be"] negative_count_args 0%nat
         = Raised ValueError.
Proof.
  eexists. split; [vm_compute; reflexivity|].
  apply (main_raises_after_checks (λ k, k) 5 ["A"; "Be"] negative_count_args
           _ 0%nat ValueError ltac:(vm_compute; reflexivity)).
  split; [done|]. split; [left; by vm_compute | by vm_compute].
Defined.

(** Parameters that pass the checks with one word list make [main]
    raise [ValueError] with any word list that leaves no word within the
    word-length bounds: the logarithm of the size of the word set, taken
    for the warning of line 301, is not defined at [0]. *)
Theorem empty_word_set_raises (rng : nat → nat) (fuel : nat)
    (words_txt words_txt' : list string) (a : args) (p : plan) (pos : nat)
    (Hchecked : configure words_txt a = Done (inr p))
    (Hempty : word_set_of words_txt' a = []) :
  main rng fuel words_txt' a pos = Raised ValueError.
Proof.
  pose proof (configure_inr _ _ _ Hchecked) as (_ & _ & _ & _ & _ & Hsp).
  pose proof (configure_checked _ _ _ Hchecked)
    as (Hw & (lo & hi & Hd & Hlohi & _ & _ & Hlong & Hshort)
        & Htop & _ & Hvalid & _).
  apply main_Raised. left. unfold configure.
  destruct (min_word a >? max_word a) eqn:Hgt; [lia|].
  rewrite Hd, Hlohi, Hlong.
  rewrite (proj2 (Z.ltb_ge _ _) Hshort).
  unfold base_word_set.
  destruct (islice_stop_cases (top_words a)) as [[Ht _] | [_ Hbad]];
    [|unfold bad_stop in Hbad; lia].
  rewrite Ht. cbn [mbind result_bind].
  rewrite <- Hsp, Hvalid.
  rewrite bool_decide_false by (by intros [? ?]).
  unfold word_set_of in Hempty. by rewrite Hempty.
Qed.

Lemma empty_word_set_raises_witness :
  main (λ k, k) 10 ["Fig"; "Elderberry"] sample_args 0%nat = Raised ValueError.
Proof.
  eapply (empty_word_set_raises (λ k, k) 10 sample_words ["Fig"; "Elderberry"]
            sample_args).
  - vm_compute. reflexivity.
  - vm_compute. reflexivity.
Defined.

(** ** The sample behind the entropy estimate *)

Section SampleCount.
Variable rng : nat → nat.
Variable fuel : nat.
Variable word_set : list string.
Variable word_count : Z.
Variable append_numeral : bool.
Variable special_chars : string.
Variable min_len : Z.
Variable max_len : bound.

Local Notation "'candidate'" :=
  (base_passwords rng fuel word_set word_count append_numeral special_chars).
Local Notation "'candidates'" :=
  (batch rng fuel word_set word_count append_numeral special_chars).
Local Notation "'accepted'" := (in_length min_len max_len).

Lemma batch_S_inv n pos ps pos' :
  candidates (S n) pos = Done (ps, pos') →
  ∃ q qs pos1, ps = q :: qs ∧ candidate pos = Done (q, pos1)
               ∧ candidates n pos1 = Done (qs, pos').
Proof.
  intros H. simpl in H. apply gen_bind_Done in H.
  destruct H as (q & pos1 & Hq & H).
  apply gen_bind_Done in H. destruct H as (qs & pos2 & Hqs & H).
  apply gen_ret_Done in H. destruct H as [<- <-]. by exists q, qs, pos1.
Qed.

Lemma batch_app_inv n1 n2 pos ps pos' :
  candidates (n1 + n2) pos = Done (ps, pos') →
  ∃ ps1 ps2 pos1, ps = ps1 ++ ps2
                  ∧ candidates n1 pos = Done (ps1, pos1)
                  ∧ candidates n2 pos1 = Done (ps2, pos').
Proof.
  revert pos ps. induction n1 as [|n1 IH]; intros pos ps H.
  - by exists [], ps, pos.
  - change (S n1 + n2)%nat with (S (n1 + n2)) in H.
    apply batch_S_inv in H. destruct H as (q & qs & pos1 & -> & Hq & H).
    apply IH in H. destruct H as (ps1 & ps2 & pos2 & -> & H1 & H2).
    exists (q :: ps1), ps2, pos2. repeat split; [|done].
    simpl. rewrite (gen_bind_step _ _ _ _ _ Hq).
    by rewrite (gen_bind_step _ _ _ _ _ H1).
Qed.

Lemma count_iterator_batch n pos ps pos' :
  candidates n pos = Done (ps, pos') →
  count_iterator rng fuel word_set word_count append_numeral special_chars
    min_len max_len n pos = Done (accepted_count min_len max_len ps, pos').
Proof.
  revert pos ps. induction n as [|n IH]; intros pos ps H.
  - apply gen_ret_Done in H. by destruct H as [<- <-].
  - apply batch_S_inv in H. destruct H as (q & qs & pos1 & -> & Hq & H).
    simpl. rewrite (gen_bind_step _ _ _ _ _ Hq).
    rewrite (gen_bind_step _ _ _ _ _ (IH _ _ H)).
    assert (Hcount : accepted_count min_len max_len (q :: qs)
                     = if accepted q then 1 + accepted_count min_len max_len qs
                       else accepted_count min_len max_len qs).
    { unfold accepted_count. rewrite filter_cons.
      destruct (accepted q) eqn:Hacc.
      - rewrite decide_True by done. simpl length. lia.
      - by rewrite decide_False by (by intros ?). }
    by rewrite Hcount.
Qed.

Lemma filter_rejected ps :
  Forall (λ q, accepted q = false) ps →
  filter (λ q, accepted q = true) ps = [].
Proof.
  induction 1 as [|q ps Hq _ IH]; [done|].
  rewrite filter_cons, decide_False, IH; [done|]. by rewrite Hq.
Qed.

Lemma first_accepted_split ps p :
  head (filter (λ q, accepted q = true) ps) = Some p →
  ∃ ps1 ps2, ps = ps1 ++ p :: ps2
             ∧ Forall (λ q, accepted q = false) ps1
             ∧ accepted p = true.
Proof.
  induction ps as [|q ps IH]; [done|].
  rewrite filter_cons. destruct (accepted q) eqn:Hacc.
  - rewrite decide_True by done. intros [= ->]. by exists [], ps.
  - rewrite decide_False by (by intros ?). intros H.
    destruct (IH H) as (ps1 & ps2 & -> & Hrej & Hp).
    exists (q :: ps1), ps2. repeat split; [by constructor | done].
Qed.

Lemma first_accepted_head ps1 p ps2 :
  Forall (λ q, accepted q = false) ps1 →
  accepted p = true →
  head (filter (λ q, accepted q = true) (ps1 ++ p :: ps2)) = Some p.
Proof.
  intros Hrej Hp.
  by rewrite filter_app, filter_rejected, filter_cons, decide_True.
Qed.

Lemma accepted_count_split ps1 p ps2 :
  Forall (λ q, accepted q = false) ps1 →
  accepted p = true →
  accepted_count min_len max_len (ps1 ++ p :: ps2)
  = accepted_count min_len max_len ps2 + 1.
Proof.
  intros Hrej Hp. unfold accepted_count.
  rewrite filter_app, filter_rejected, filter_cons, decide_True by done.
  simpl length. lia.
Qed.

(** The first accepted candidate of a whole sample, what the lazy filter
    does with it and what is counted afterwards. *)
Lemma sample_first_accepted n pos p :
  (∃ ps pos', candidates n pos = Done (ps, pos')
              ∧ head (filter (λ q, accepted q = true) ps) = Some p) →
  ∃ remaining pos1,
    constrain_word_length_next rng fuel word_set word_count append_numeral
      special_chars min_len max_len n pos = Done (Some (p, remaining), pos1).
Proof.
  intros (ps & pos' & Hps & Hhead).
  apply first_accepted_split in Hhead.
  destruct Hhead as (ps1 & ps2 & -> & Hrej & Hp).
  pose proof (batch_length _ _ _ _ _ _ _ _ _ _ Hps) as Hlen.
  rewrite length_app in Hlen. simpl in Hlen. subst n.
  apply batch_app_inv in Hps.
  destruct Hps as (l1 & l2 & pos1 & Heq & H1 & H2).
  pose proof (batch_length _ _ _ _ _ _ _ _ _ _ H1) as Hl1.
  apply app_inj_1 in Heq; [|done]. destruct Heq as [<- <-].
  apply batch_S_inv in H2. destruct H2 as (q & qs & pos2 & [= <- <-] & Hq & _).
  exists (length ps2), pos2. apply next_Some. exists ps1, pos1.
  by repeat split.
Qed.
End SampleCount.

(** With an entropy estimate asked for, [main] prints a password
    exactly when the whole sample of [sample_size] candidates can be
    generated and one of them is within the length bounds.  The password
    is the first such candidate, and the estimate is the sum of the four
    terms with the number of all candidates of the sample within the
    bounds as success size. *)
Theorem main_entropy_report (rng : nat → nat) (fuel : nat)
    (words_txt : list string) (a : args) (p : plan) (pos : nat)
    (password : string) (entropy : option R) (pos' : nat)
    (Hchecked : configure words_txt a = Done (inr p))
    (Hflag : entropy_estimate a || verbose a = true) :
  main rng fuel words_txt a pos = Done (Printed password entropy, pos') ↔
  ∃ ps,
    batch rng fuel (p_word_set p) (word_count a) (p_append_numeral p)
      (p_special_set p) (p_sample p) pos = Done (ps, pos')
    ∧ head (filter (λ q, in_length (p_min_length p) (p_max_length p) q = true)
              ps) = Some password
    ∧ entropy
      = Some (spec_entropy (Z.of_nat (length (p_word_set p))) (word_count a)
                (p_append_numeral p) (p_special_set p) (sample_size a)
                (accepted_count (p_min_length p) (p_max_length p) ps)).
Proof.
  pose proof (configure_inr _ _ _ Hchecked) as (_ & Hne & _ & Hn & _).
  rewrite (main_configured _ _ _ _ _ _ Hchecked). split.
  - intros Hmain.
    destruct (generate_Printed _ _ _ _ _ _ _ _ Hmain)
      as (remaining & pos1 & Hnext & Hrest).
    rewrite Hflag in Hrest. destruct Hrest as [c Hc].
    destruct (generate_entropy_Done rng fuel a p pos password remaining pos1
                c pos' Hne Hn Hflag Hnext Hc) as [_ Hg].
    rewrite Hg in Hmain. injection Hmain as <-.
    apply next_Some in Hnext.
    destruct Hnext as (ps1 & pos0 & Hsize & Hps1 & Hrej & Hp & Hacc).
    apply count_iterator_Done in Hc. destruct Hc as (ps2 & Hps2 & ->).
    exists (ps1 ++ password :: ps2). split; [|split].
    + rewrite Hsize.
      replace (S (length ps1 + remaining))
        with (length ps1 + S remaining)%nat by lia.
      eapply batch_app; [done|]. simpl.
      rewrite (gen_bind_step _ _ _ _ _ Hp).
      by rewrite (gen_bind_step _ _ _ _ _ Hps2).
    + by apply first_accepted_head.
    + by rewrite accepted_count_split.
  - intros (ps & Hps & Hhead & ->).
    destruct (sample_first_accepted rng fuel (p_word_set p) (word_count a)
                (p_append_numeral p) (p_special_set p) (p_min_length p)
                (p_max_length p) (p_sample p) pos password)
      as (remaining & pos1 & Hnext); [eauto|].
    pose proof Hnext as Hsplit. apply next_Some in Hsplit.
    destruct Hsplit as (ps1 & pos0 & Hsize & Hps1 & Hrej & Hp & Hacc).
    rewrite Hsize in Hps.
    replace (S (length ps1 + remaining))
      with (length ps1 + S remaining)%nat in Hps by lia.
    apply batch_app_inv in Hps.
    destruct Hps as (l1 & l2 & pos2 & -> & H1 & H2).
    rewrite Hps1 in H1. injection H1 as <- <-.
    apply batch_S_inv in H2. destruct H2 as (q & qs & pos3 & -> & Hq & Hqs).
    rewrite Hp in Hq. injection Hq as <- <-.
    destruct (generate_entropy_Done rng fuel a p pos password remaining pos1
                _ pos' Hne Hn Hflag Hnext
                (count_iterator_batch rng fuel _ _ _ _ (p_min_length p)
                   (p_max_length p) _ _ _ _ Hqs)) as [_ Hg].
    by rewrite accepted_count_split.
Qed.

Lemma main_entropy_report_witness :
  ∃ password x pos',
    main (λ k, k) 10 sample_words report_args 0%nat
    = Done (Printed password (Some x), pos').
Proof.
  eexists _, _, _.
  eapply (main_entropy_report (λ k, k) 10 sample_words report_args).
  - vm_compute. reflexivity.
  - reflexivity.
  - eexists. split; [vm_compute; reflexivity|].
    split; [vm_compute; reflexivity | reflexivity].
Defined.

(** ** The domain of the entropy estimate *)

Lemma wordset_entropy_Raised (N : Z) (k : nat) :
  (1 ≤ k)%nat → N < Z.of_nat k →
  wordset_entropy N (Z.of_nat k) = Raised ValueError.
Proof.
  induction k as [|k IH]; intros Hk HN; [lia|].
  rewrite wordset_entropy_S.
  destruct (decide (N < Z.of_nat k ∧ (1 ≤ k)%nat)) as [[? ?] | Hno].
  - by rewrite IH.
  - destruct (decide (k = 0%nat)) as [-> | Hk0].
    + rewrite wordset_entropy_neg by done. cbn [mbind result_bind].
      by rewrite log2_Raised by lia.
    + rewrite wordset_entropy_big_sum by lia. cbn [mbind result_bind].
      by rewrite log2_Raised by lia.
Qed.

Lemma special_char_entropy_Done (special_chars : string) :
  special_char_entropy special_chars
  = Done (spec_special_char_entropy special_chars).
Proof.
  unfold special_char_entropy, spec_special_char_entropy.
  case_bool_decide as Hs; [|done].
  apply log2_Done. destruct special_chars; [done|].
  unfold len. simpl. lia.
Qed.

(** [estimate_entropy] raises [ValueError] exactly when more words
    are asked for than the word set holds, or the sample size or the
    success size is not positive; in every other case it returns the sum
    of the four terms.  A word count of zero or less is accepted with any
    word set size. *)
Theorem estimate_entropy_domain (word_set_size word_count : Z)
    (append_numeral : bool) (special_chars : string)
    (sample_size success_size : Z) :
  (estimate_entropy word_set_size word_count append_numeral special_chars
     sample_size success_size = Raised ValueError ↔
   (1 ≤ word_count ∧ word_set_size < word_count)
   ∨ sample_size ≤ 0 ∨ success_size ≤ 0)
  ∧ (estimate_entropy word_set_size word_count append_numeral special_chars
       sample_size success_size
     = Done (spec_entropy word_set_size word_count append_numeral
               special_chars sample_size success_size) ↔
     (word_count ≤ 0 ∨ word_count ≤ word_set_size)
     ∧ 1 ≤ sample_size ∧ 1 ≤ success_size).
Proof.
  assert (Hbad : (1 ≤ word_count ∧ word_set_size < word_count)
                 ∨ sample_size ≤ 0 ∨ success_size ≤ 0 →
                 estimate_entropy word_set_size word_count append_numeral
                   special_chars sample_size success_size
                 = Raised ValueError).
  { intros Hcase. unfold estimate_entropy.
    destruct (decide (1 ≤ word_count ∧ word_set_size < word_count))
      as [[Hc Hw] | Hok].
    { rewrite <- (Z2Nat.id word_count) by lia.
      rewrite wordset_entropy_Raised by lia. done. }
    assert (Hw : wordset_entropy word_set_size word_count
                 = Done (spec_word_selection_entropy word_set_size word_count)).
    { destruct (decide (word_count ≤ 0)).
      - rewrite wordset_entropy_neg by done. unfold spec_word_selection_entropy.
        by replace (Z.to_nat word_count) with 0%nat by lia.
      - apply wordset_entropy_spec. lia. }
    rewrite Hw. cbn [mbind result_bind].
    assert (Hn : numeral_entropy append_numeral
                 = Done (spec_numeral_entropy append_numeral)).
    { by destruct append_numeral. }
    rewrite Hn, special_char_entropy_Done. cbn [mbind result_bind].
    unfold sampled_entropy.
    destruct (decide (success_size ≤ 0)).
    { rewrite (log2_Raised success_size) by done. done. }
    rewrite (log2_Done success_size) by lia. cbn [mbind result_bind].
    rewrite (log2_Raised sample_size) by lia. done. }
  assert (Hgood : (word_count ≤ 0 ∨ word_count ≤ word_set_size)
                  ∧ 1 ≤ sample_size ∧ 1 ≤ success_size →
                  estimate_entropy word_set_size word_count append_numeral
                    special_chars sample_size success_size
                  = Done (spec_entropy word_set_size word_count append_numeral
                            special_chars sample_size success_size)).
  { intros (Hw & Hs & Hc).
    destruct (decide (word_count ≤ word_set_size)).
    { by apply estimate_entropy_Done. }
    unfold estimate_entropy, spec_entropy.
    rewrite wordset_entropy_neg by lia. unfold spec_word_selection_entropy.
    replace (Z.to_nat word_count) with 0%nat by lia. cbn [mbind result_bind].
    assert (Hn : numeral_entropy append_numeral
                 = Done (spec_numeral_entropy append_numeral)).
    { by destruct append_numeral. }
    rewrite Hn, special_char_entropy_Done. cbn [mbind result_bind].
    unfold sampled_entropy. rewrite !log2_Done by lia. done. }
  split; split.
  - intros H.
    destruct (decide ((1 ≤ word_count ∧ word_set_size < word_count)
                      ∨ sample_size ≤ 0 ∨ success_size ≤ 0)); [done|].
    rewrite Hgood in H by lia. done.
  - done.
  - intros H.
    destruct (decide ((word_count ≤ 0 ∨ word_count ≤ word_set_size)
                      ∧ 1 ≤ sample_size ∧ 1 ≤ success_size)); [done|].
    rewrite Hbad in H by lia. done.
  - done.
Qed.

(** ** The word selection entropy counts ordered selections *)
















(** ** Passwords without words *)

Lemma compose_starts_upper words numeral special :
  words ≠ [] →
  Forall (λ w, capitalized w = true) words →
  starts_with is_upper (compose words numeral special) = true
  ∧ starts_with is_upper (compose words numeral special +:+ newline) = true.
Proof.
  intros Hne Hws. destruct Hws as [|w ws Hw Hws]; [done|].
  destruct w as [|c w]; [done|]. simpl in Hw.
  apply andb_true_iff in Hw. destruct Hw as [Hc _].
  rewrite compose_eq, join_cons, !string_app_cons. done.
Qed.

(** A password that [main] prints for a word count of zero has no
    word, and [password_parts] rejects it with [ValueError]. *)
Theorem main_without_words_unparsable (rng : nat → nat) (fuel : nat)
    (words_txt : list string) (a : args) (pos pos' : nat)
    (password : string) (entropy : option R)
    (Hcount : word_count a ≤ 0)
    (Hmain : main rng fuel words_txt a pos
             = Done (Printed password entropy, pos')) :
  password_parts password = Raised ValueError.
Proof.
  apply main_Printed_candidate in Hmain.
  destruct Hmain as (p & pos1 & pos2 & Hcfg & Hgen & _).
  pose proof (configure_checked _ _ _ Hcfg) as (_ & _ & _ & _ & Hvalid & _).
  apply base_passwords_Done in Hgen.
  destruct Hgen as (words & numeral & special & pos0 & Hw & Hn & Hs & ->).
  apply alpha_words_Done in Hw. destruct Hw as (Hlen & _).
  destruct words; [|simpl in Hlen; lia].
  assert (Hnum : numeral_part numeral = true).
  { destruct (p_append_numeral p); [by apply chars_digits | by subst]. }
  assert (Hsp : special_part special = true).
  { destruct (bool_decide (p_special_set p ≠ ""));
      [by eapply valid_special_part | by subst]. }
  destruct (tail_starts _ _ Hnum Hsp) as [_ Hup].
  unfold password_parts.
  destruct (re_match password_re (compose [] numeral special)) as [m|] eqn:Hm;
    [|done].
  apply re_match_password_inv in Hm.
  destruct Hm as (ws & n' & s' & Hne & Hcap & _ & _ & _ & Heq).
  destruct (compose_starts_upper ws n' s' Hne Hcap) as [H1 H2].
  rewrite compose_eq in Heq. change (join []) with "" in Heq.
  rewrite string_app_nil_l in Heq.
  destruct Heq as [Heq | Heq]; rewrite Heq in Hup; congruence.
Qed.

Lemma main_without_words_unparsable_witness :
  password_parts "0?" = Raised ValueError.
Proof.
  apply (main_without_words_unparsable (λ k, k) 10 sample_words no_words_args
           0%nat 2%nat "0?" None).
  - by vm_compute.
  - vm_compute. reflexivity.
Defined.

(** ** A single special character *)

(** [special_char_entropy] always returns; the result is never
    negative, and it is zero exactly for a special set of at most one
    character, the case in which [main] reports that the character added
    no entropy. *)
Theorem special_char_entropy_sign (special_chars : string) :
  ∃ x, special_char_entropy special_chars = Done x
       ∧ (0 <= x)%R
       ∧ (x = 0%R ↔ len special_chars ≤ 1).
Proof.
  exists (spec_special_char_entropy special_chars).
  split; [apply special_char_entropy_Done|].
  unfold spec_special_char_entropy. case_bool_decide as Hs.
  - assert (Hlen : 1 ≤ len special_chars).
    { destruct special_chars; [done|]. unfold len. simpl. lia. }
    destruct (decide (len special_chars = 1)) as [-> | Hne].
    + rewrite Rlog2_1. split; [lra|]. split; [lia | done].
    + assert (Hpos : (0 < Rlog2 (IZR (len special_chars)))%R).
      { apply Rlog2_pos. apply IZR_lt. lia. }
      split; [lra|]. split; [lra | lia].
  - subst. split; [lra|]. split; [by vm_compute | done].
Qed.
